(** * Pylontech battery monitor: protocol engine and table parser

    A shallow embedding of [monitor.py]: the framed command/response
    engine ([network_command], [serial_command]) and the fixed-width
    table parser of [get_power], followed by the properties stated for
    them.

    Python values are modelled as follows.
    - [bytes] is a list of [Byte.byte].
    - [str] is a list of Unicode code points ([N]); [txt] turns an ASCII
      literal into such a list.
    - Python integers used as offsets and lengths are [Z]; indexing and
      slicing follow Python (negative indices count from the end, slices
      clamp).
    - An exception is a value of [exn]; a call returns [Return v] or
      [Raise e].
    - The device is the list of connections it will serve, one per call
      of the command function; every call is logged with its arguments. *)

From Stdlib Require Import Strings.String Strings.Byte.
From Stdlib Require Import List ZArith NArith Lia Bool.
From Stdlib Require Import Sorting.Sorted.
From Equations Require Import Equations.
Import ListNotations.

(** ** Python sequences *)

Module Py.

Section Sequences.
Context {A : Type}.

(** [len(s)] *)
Definition len (s : list A) : Z := Z.of_nat (length s).

(** [s[i]]: a negative index counts from the end; out of range is
    [IndexError], here [None]. *)
Definition index (s : list A) (i : Z) : option A :=
  let j := if (i <? 0)%Z then (i + len s)%Z else i in
  if (j <? 0)%Z then None else nth_error s (Z.to_nat j).

(** How a slice bound is brought into [0 .. len(s)]. *)
Definition clamp (s : list A) (i : Z) : nat :=
  let j := if (i <? 0)%Z then (i + len s)%Z else i in
  Z.to_nat (Z.min (Z.max j 0) (len s)).

(** [s[start:stop]]; [None] is an omitted bound. *)
Definition slice (s : list A) (start stop : option Z) : list A :=
  let a := match start with Some i => clamp s i | None => 0%nat end in
  let b := match stop with Some i => clamp s i | None => length s end in
  firstn (b - a) (skipn a s).

(** The leading elements that satisfy [p] are removed. *)
Fixpoint dropwhile (p : A -> bool) (s : list A) : list A :=
  match s with
  | [] => []
  | x :: r => if p x then dropwhile p r else s
  end.

Definition rstrip_by (p : A -> bool) (s : list A) : list A :=
  rev (dropwhile p (rev s)).

Definition strip_by (p : A -> bool) (s : list A) : list A :=
  rstrip_by p (dropwhile p s).

Variable eqb : A -> A -> bool.

(** [s.startswith(p)] *)
Fixpoint startswith (s p : list A) {struct p} : bool :=
  match p, s with
  | [], _ => true
  | _ :: _, [] => false
  | y :: p', x :: s' => eqb x y && startswith s' p'
  end.

(** [s.endswith(p)] *)
Definition endswith (s p : list A) : bool :=
  startswith (rev s) (rev p).

(** [needle in hay] for sequences: [needle] occurs as a contiguous run. *)
Fixpoint contains (needle hay : list A) : bool :=
  startswith hay needle
  || match hay with
     | [] => false
     | _ :: r => contains needle r
     end.

(** [s.split(sep)] for a one-element separator: always at least one piece. *)
Fixpoint split (sep : A) (s : list A) : list (list A) :=
  match s with
  | [] => [[]]
  | x :: r =>
      if eqb x sep then [] :: split sep r
      else match split sep r with
           | piece :: rest => (x :: piece) :: rest
           | [] => [[x]]
           end
  end.
End Sequences.

(** [range(n)] *)
Definition range (n : Z) : list Z := map Z.of_nat (seq 0 (Z.to_nat n)).

End Py.

(** ** Bytes and text *)

Definition bytes := list byte.

(** A Unicode code point. *)
Definition char := N.
Definition text := list char.

(** [b_ "pwr"] is the bytes literal of the source, [txt "pwr"] the string
    literal. *)
Definition b_ (s : String.string) : bytes := String.list_byte_of_string s.
Definition txt (s : String.string) : text := map Byte.to_N (b_ s).
Arguments b_ s%_string.
Arguments txt s%_string.

Definition byte_of_N (n : N) : byte :=
  match Byte.of_N n with Some b => b | None => x00 end.

Definition text_eqb (s t : text) : bool :=
  if list_eq_dec N.eq_dec s t then true else false.

(** [bytes.rstrip()] removes ASCII whitespace: space, tab, newline,
    carriage return, vertical tab, form feed. *)
Definition ascii_space (b : byte) : bool :=
  let n := Byte.to_N b in
  ((9 <=? n) && (n <=? 13) || (n =? 32))%N.

Definition bytes_rstrip (s : bytes) : bytes := Py.rstrip_by ascii_space s.

(** [str.isspace()] for one code point: the characters [str.strip()] and
    [str.rstrip()] remove. *)
Definition isspace (c : char) : bool :=
  ((9 <=? c) && (c <=? 13) || (28 <=? c) && (c <=? 32)
   || (c =? 0x85) || (c =? 0xA0) || (c =? 0x1680)
   || (0x2000 <=? c) && (c <=? 0x200A)
   || (c =? 0x2028) || (c =? 0x2029) || (c =? 0x202F)
   || (c =? 0x205F) || (c =? 0x3000))%N.

Definition str_rstrip (s : text) : text := Py.rstrip_by isspace s.
Definition str_strip (s : text) : text := Py.strip_by isspace s.

(** *** UTF-8, as [str.encode()] and [bytes.decode()] use it (strict) *)

Definition surrogate (c : char) : bool := ((0xD800 <=? c) && (c <=? 0xDFFF))%N.

Definition encode_char (c : char) : option bytes :=
  (if c <? 0x80 then Some [byte_of_N c]
   else if c <? 0x800 then
     Some [byte_of_N (0xC0 + c / 64); byte_of_N (0x80 + c mod 64)]
   else if c <? 0x10000 then
     if surrogate c then None
     else Some [byte_of_N (0xE0 + c / 4096);
                byte_of_N (0x80 + (c / 64) mod 64);
                byte_of_N (0x80 + c mod 64)]
   else if c <? 0x110000 then
     Some [byte_of_N (0xF0 + c / 262144);
           byte_of_N (0x80 + (c / 4096) mod 64);
           byte_of_N (0x80 + (c / 64) mod 64);
           byte_of_N (0x80 + c mod 64)]
   else None)%N.

(** [s.encode()]; [None] is [UnicodeEncodeError]. *)
Fixpoint encode (s : text) : option bytes :=
  match s with
  | [] => Some []
  | c :: r =>
      match encode_char c, encode r with
      | Some bs, Some rest => Some (bs ++ rest)
      | _, _ => None
      end
  end.

(** The payload bits of a continuation byte [10xxxxxx]. *)
Definition continuation (b : byte) : option N :=
  let n := Byte.to_N b in
  (if (0x80 <=? n) && (n <=? 0xBF) then Some (n - 0x80) else None)%N.

Definition decoded (ok : bool) (c : char) (rest : option text) : option text :=
  if ok then option_map (cons c) rest else None.

(** [b.decode()]; [None] is [UnicodeDecodeError]. Overlong forms,
    surrogates and code points above U+10FFFF are rejected. *)
Fixpoint decode (bs : bytes) : option text :=
  match bs with
  | [] => Some []
  | b0 :: r0 =>
      let n0 := Byte.to_N b0 in
      (if n0 <? 0x80 then decoded true n0 (decode r0)
       else if n0 <? 0xC2 then None
       else if n0 <? 0xE0 then
         match r0 with
         | b1 :: r1 =>
             match continuation b1 with
             | Some c1 => decoded true ((n0 - 0xC0) * 64 + c1) (decode r1)
             | None => None
             end
         | _ => None
         end
       else if n0 <? 0xF0 then
         match r0 with
         | b1 :: b2 :: r2 =>
             match continuation b1, continuation b2 with
             | Some c1, Some c2 =>
                 let c := (n0 - 0xE0) * 4096 + c1 * 64 + c2 in
                 decoded ((0x800 <=? c) && negb (surrogate c)) c (decode r2)
             | _, _ => None
             end
         | _ => None
         end
       else if n0 <? 0xF5 then
         match r0 with
         | b1 :: b2 :: b3 :: r3 =>
             match continuation b1, continuation b2, continuation b3 with
             | Some c1, Some c2, Some c3 =>
                 let c := (n0 - 0xF0) * 262144 + c1 * 4096 + c2 * 64 + c3 in
                 decoded ((0x10000 <=? c) && (c <? 0x110000)) c (decode r3)
             | _, _, _ => None
             end
         | _ => None
         end
       else None)%N
  end.

(** ** The protocol engine *)

Definition CR : byte := x0d.
Definition LF : byte := x0a.

Definition MARK_PROMPT : bytes := CR :: b_ "pylon>".
Definition MARK_BEGIN : bytes := [LF; CR] ++ b_ "@" ++ [CR; CR; LF].
Definition MARK_END : bytes :=
  [CR; LF; CR] ++ b_ "Command completed successfully"
  ++ [CR; LF; CR] ++ b_ "$$" ++ [CR; LF] ++ MARK_PROMPT.

(** Exceptions. The first seven are raised inside the [try] of the command
    function and never leave it: [ConnectError] is the
    [RuntimeError("Error connecting to device ...")] (or "Error opening
    device"), [WriteTimeout] the "Write operation timed out",
    [WriteError] whatever [sendall] or [os.write] raises, [ReadTimeout] the
    "Read operation timed out", [ReadError] whatever [recv] or [os.read]
    raises besides a timeout, [FrameCorrupt] the
    [Exception("Response frame corrupt")], [DecodeError] the
    [UnicodeDecodeError] of [response.decode()]. [EncodeError] is the
    [UnicodeEncodeError] of [command.encode()], raised before the [try].
    [CommandFailed c] is [RuntimeError("Error sending command c")] and
    [TableParseError r] is [RuntimeError("Error parsing power (r)")]; each
    of the two is raised while another exception is being handled, which
    Python keeps as its context and the program never reads. *)
Inductive exn : Type :=
| ConnectError
| WriteTimeout
| WriteError
| ReadTimeout
| ReadError
| FrameCorrupt
| DecodeError
| EncodeError
| CommandFailed (command : text)
| TableParseError (response : text).

Inductive result (A : Type) : Type :=
| Return (a : A)
| Raise (e : exn).
Arguments Return {A} a.
Arguments Raise {A} e.

(** Which of the two command functions runs. *)
Inductive transport : Type := Network | Serial.

(** What one read of at most 256 bytes gives: [recv] timing out or
    [select] reporting nothing readable; the bytes [recv] or [os.read]
    returned, possibly none; or another exception. *)
Inductive read_event : Type :=
| Timeout
| Data (d : bytes)
| Failure.

(** One connection to the device: whether it can be opened, whether
    [select] finds it writable within a second (serial only), whether the
    write goes through, and what the reads give in order. Past the end of
    [reads] the peer is silent: every further read times out. *)
Record session : Type := {
  opens : bool;
  writable : bool;
  accepts : bool;
  reads : list read_event
}.

(** The two variables of the read loop. *)
Record buffer : Type := { response : bytes; timeout_counter : nat }.

Inductive loop_exit : Type :=
| Found (b : buffer)
| TimedOut (b : buffer)
| Failed (b : buffer).

(** The loop starts with an empty response and the counter at 0. *)
Definition empty_buffer : buffer := {| response := []; timeout_counter := 0 |}.

(** [while mark_end not in response: ...]. A timeout adds one to the
    counter. [network_command] also counts a [recv] that returns no bytes
    ([if not data: timeout_counter += 1]); [serial_command] appends whatever
    [os.read] returns. Another exception leaves the loop. When the script of
    reads is exhausted with the counter still at most 5, the silent peer
    makes every further read time out, so the counter climbs to 6 and the
    loop raises. *)
Fixpoint read_loop (t : transport) (mark_end : bytes)
    (script : list read_event) (b : buffer) : loop_exit :=
  if Py.contains Byte.eqb mark_end (response b) then Found b
  else if (5 <? timeout_counter b)%nat then TimedOut b
  else
    match script with
    | [] => TimedOut {| response := response b; timeout_counter := 6 |}
    | Timeout :: rest =>
        read_loop t mark_end rest
          {| response := response b;
             timeout_counter := timeout_counter b + 1 |}
    | Data d :: rest =>
        match t, d with
        | Network, [] =>
            read_loop t mark_end rest
              {| response := response b;
                 timeout_counter := timeout_counter b + 1 |}
        | _, _ =>
            read_loop t mark_end rest
              {| response := response b ++ d;
                 timeout_counter := timeout_counter b |}
        end
    | Failure :: _ => Failed b
    end.

Definition mark_end_of (checkframe : bool) : bytes :=
  if checkframe then MARK_END else MARK_PROMPT.

(** [response.startswith(command.encode() + MARK_BEGIN) and
    response.endswith(mark_end)] *)
Definition frame_ok (command_bytes mark_end response : bytes) : bool :=
  Py.startswith Byte.eqb response (command_bytes ++ MARK_BEGIN)
  && Py.endswith Byte.eqb response mark_end.

Definition decode_response (response : bytes) : result text :=
  match decode response with
  | Some s => Return s
  | None => Raise DecodeError
  end.

(** The body of the [try]: one connection, from opening it to
    [return response.decode()]. *)
Definition attempt (t : transport) (command : text) (command_bytes : bytes)
    (checkframe : bool) (s : session) : result text :=
  let mark_end := mark_end_of checkframe in
  if negb (opens s) then Raise ConnectError
  else if match t with Serial => negb (writable s) | Network => false end
  then Raise WriteTimeout
  else if negb (accepts s) then Raise WriteError
  else
    match read_loop t mark_end (reads s) empty_buffer with
    | TimedOut _ => Raise ReadTimeout
    | Failed _ => Raise ReadError
    | Found b =>
        let response := bytes_rstrip (response b) in
        if checkframe then
          if negb (frame_ok command_bytes mark_end response)
          then Raise FrameCorrupt
          else
            decode_response
              (Py.slice response
                 (Some (Py.len command + Py.len MARK_BEGIN)%Z)
                 (Some (- Py.len mark_end)%Z))
        else decode_response response
    end.

(** A call of the command function, as logged. *)
Record call : Type := {
  call_command : text;
  call_retries : nat;
  call_checkframe : bool
}.

(** The device serves one [session] per connection, in order; once the
    list is used up it cannot be reached. [calls] is the log. *)
Record world : Type := { device : list session; calls : list call }.

Definition unreachable : session :=
  {| opens := false; writable := false; accepts := false; reads := [] |}.

Definition enter (c : call) (w : world) : world :=
  {| device := device w; calls := calls w ++ [c] |}.

Definition connect (w : world) : session * world :=
  match device w with
  | [] => (unreachable, w)
  | s :: rest => (s, {| device := rest; calls := calls w |})
  end.

(** How the [try] statement of one call ends: with a value, with an
    exception the [except] clause catches, or with the encoding error
    raised before it. *)
Inductive outcome : Type :=
| Returned (r : text)
| Caught (e : exn)
| Uncaught (e : exn).

Definition try_command (t : transport) (command : text) (retries : nat)
    (checkframe : bool) (w : world) : outcome * world :=
  let w := enter {| call_command := command;
                    call_retries := retries;
                    call_checkframe := checkframe |} w in
  match encode command with
  | None => (Uncaught EncodeError, w)
  | Some command_bytes =>
      let (s, w) := connect w in
      match attempt t command command_bytes checkframe s with
      | Return r => (Returned r, w)
      | Raise e => (Caught e, w)
      end
  end.

(** [network_command] and [serial_command]: they differ in the transport
    only. [retries] is a count (the callers pass 0 or leave the default 1).
    With no retry left a caught exception becomes [CommandFailed]; otherwise
    the recovery probe runs, its result and exception are dropped, and the
    command is sent again with [retries - 1] and the default [checkframe]. *)
Equations? transport_command (t : transport) (command : text) (retries : nat)
    (checkframe : bool) (w : world) : result text * world by wf retries lt :=
  transport_command t command 0 checkframe w
    with try_command t command 0 checkframe w := {
    | (Returned r, w1) => (Return r, w1);
    | (Uncaught e, w1) => (Raise e, w1);
    | (Caught _, w1) => (Raise (CommandFailed command), w1) };
  transport_command t command (S n) checkframe w
    with try_command t command (S n) checkframe w := {
    | (Returned r, w1) => (Return r, w1);
    | (Uncaught e, w1) => (Raise e, w1);
    | (Caught _, w1) with transport_command t [] 0 false w1 := {
      | (_, w2) => transport_command t command n true w2 } }.
Proof. all: lia. Defined.

Definition network_command := transport_command Network.
Definition serial_command := transport_command Serial.

(** ** The table parser *)

Definition space : char := 32%N.
Definition newline : char := 10%N.
Definition underscore : char := 95%N.
Definition plus_sign : char := 43%N.
Definition minus_sign : char := 45%N.

Notation "x <- a ;; b" :=
  (match a with Some x => b | None => None end)
  (at level 61, a at next level, right associativity).

Fixpoint traverse {A B : Type} (f : A -> option B) (l : list A)
  : option (list B) :=
  match l with
  | [] => Some []
  | x :: r => y <- f x ;; ys <- traverse f r ;; Some (y :: ys)
  end.

(** [re.findall(r"([^ ]+ +)", s)], scanning left to right: [run] is the
    run of non-space characters read so far and [blanks] the spaces read
    after it. A match is a maximal run together with all the spaces that
    follow it; a run that no space follows matches nothing, and neither do
    spaces that no run precedes. *)
Fixpoint findall_columns (run blanks : text) (s : text) : list text :=
  match s with
  | [] =>
      match run, blanks with
      | _ :: _, _ :: _ => [run ++ blanks]
      | _, _ => []
      end
  | c :: r =>
      if (c =? space)%N then
        match run with
        | [] => findall_columns [] [] r
        | _ :: _ => findall_columns run (blanks ++ [c]) r
        end
      else
        match blanks with
        | [] => findall_columns (run ++ [c]) [] r
        | _ :: _ => (run ++ blanks) :: findall_columns [c] [] r
        end
  end.

(** [colstart = [0]; for m in re.findall(...): colstart.append(colstart[-1] + len(m))] *)
Definition colstart_of (header : text) : list Z :=
  fold_left (fun colstart m => colstart ++ [(last colstart 0 + Py.len m)%Z])
    (findall_columns [] [] (str_rstrip header)) [0%Z].

(** [getcell(line, cellno)], with [colstart] of the enclosing function.
    [None] is the [IndexError] of a subscript. *)
Definition getcell (colstart : list Z) (line : text) (cellno : Z)
  : option text :=
  let linelen := Py.len line in
  start <- Py.index colstart cellno ;;
  let offset1 := Z.min linelen start in
  offset1 <-
    (if (offset1 =? 0)%Z then Some offset1
     else
       before <- Py.index line (offset1 - 1) ;;
       Some (if (before =? space)%N then offset1 else (offset1 - 1)%Z)) ;;
  stop <-
    (if (cellno + 1 <? Py.len colstart)%Z
     then Py.index colstart (cellno + 1)
     else Some (Py.len line)) ;;
  let offset2 := Z.min linelen stop in
  before <- Py.index line (offset2 - 1) ;;
  let offset2 := if (before =? space)%N then offset2 else (offset2 - 1)%Z in
  Some (str_strip (Py.slice line (Some offset1) (Some offset2))).

(** [[getcell(line, i) for i in range(len(colstart))]] *)
Definition cells (colstart : list Z) (line : text) : option (list text) :=
  traverse (getcell colstart line) (Py.range (Py.len colstart)).

(** A value of a record: the cell text, or the integer it was coerced to. *)
Inductive value : Type :=
| Str (s : text)
| Int (z : Z).

Definition value_eqb (a b : value) : bool :=
  match a, b with
  | Str s, Str t => text_eqb s t
  | Int x, Int y => (x =? y)%Z
  | _, _ => false
  end.

(** A [dict] with string keys, in insertion order. *)
Definition item := list (text * value).

Fixpoint dict_get (k : text) (d : item) : option value :=
  match d with
  | [] => None
  | (k', v) :: r => if text_eqb k k' then Some v else dict_get k r
  end.

(** [d[k] = v]: an existing key keeps its place. *)
Fixpoint dict_set (k : text) (v : value) (d : item) : item :=
  match d with
  | [] => [(k, v)]
  | (k', v') :: r =>
      if text_eqb k k' then (k', v) :: r else (k', v') :: dict_set k v r
  end.

(** [dict(zip(headers, values))] *)
Definition dict_zip (headers values : list text) : item :=
  fold_left (fun d kv => dict_set (fst kv) (Str (snd kv)) d)
    (combine headers values) [].

(** *** [int(s)] for a string

    Whitespace around the number is skipped: ASCII whitespace, and every
    other character of [isspace] from U+0080 on (the separators U+001C to
    U+001F are not skipped). Then an optional sign, then decimal digits
    with single underscores between them. A digit is any character of
    Unicode category Nd; they come in runs of ten, listed by their zero
    (Unicode 14). More than [int_max_str_digits] digits are refused, the
    default limit of CPython since 3.11. *)

Definition int_space (c : char) : bool :=
  ((9 <=? c) && (c <=? 13) || (c =? 32) || (128 <=? c) && isspace c)%N.

Definition decimal_zeros : list N :=
  [0x30; 0x660; 0x6F0; 0x7C0; 0x966; 0x9E6; 0xA66; 0xAE6; 0xB66; 0xBE6;
   0xC66; 0xCE6; 0xD66; 0xDE6; 0xE50; 0xED0; 0xF20; 0x1040; 0x1090;
   0x17E0; 0x1810; 0x1946; 0x19D0; 0x1A80; 0x1A90; 0x1B50; 0x1BB0;
   0x1C40; 0x1C50; 0xA620; 0xA8D0; 0xA900; 0xA9D0; 0xA9F0; 0xAA50;
   0xABF0; 0xFF10; 0x104A0; 0x10D30; 0x11066; 0x110F0; 0x11136; 0x111D0;
   0x112F0; 0x11450; 0x114D0; 0x11650; 0x116C0; 0x11730; 0x118E0;
   0x11950; 0x11C50; 0x11D50; 0x11DA0; 0x16A60; 0x16AC0; 0x16B50;
   0x1D7CE; 0x1D7D8; 0x1D7E2; 0x1D7EC; 0x1D7F6; 0x1E140; 0x1E2F0;
   0x1E950; 0x1FBF0]%N.

Definition decimal (c : char) : option Z :=
  match find (fun z => (z <=? c) && (c <? z + 10))%N decimal_zeros with
  | Some z => Some (Z.of_N (c - z))
  | None => None
  end.

Definition int_max_str_digits : N := 4300%N.

(** The digits after the sign: the value read so far, how many digits it
    has, and whether the previous character was a digit. *)
Fixpoint int_digits (after_digit : bool) (acc : Z) (count : N) (s : text)
  : option (Z * N) :=
  match s with
  | [] => if after_digit then Some (acc, count) else None
  | c :: r =>
      if (c =? underscore)%N then
        if after_digit then int_digits false acc count r else None
      else
        d <- decimal c ;;
        int_digits true (acc * 10 + d)%Z (count + 1)%N r
  end.

Definition int_unsigned (s : text) : option Z :=
  m <- int_digits false 0%Z 0%N s ;;
  if (snd m <=? int_max_str_digits)%N then Some (fst m) else None.

(** [None] is [ValueError]. *)
Definition py_int (s : text) : option Z :=
  match Py.strip_by int_space s with
  | c :: r =>
      if (c =? plus_sign)%N then int_unsigned r
      else if (c =? minus_sign)%N then option_map Z.opp (int_unsigned r)
      else int_unsigned (c :: r)
  | [] => None
  end.

(** [int(v)] for a value of a record. *)
Definition int_of (v : value) : option Z :=
  match v with
  | Str s => py_int s
  | Int z => Some z
  end.

Definition NUMERIC : list text :=
  [txt "Power"; txt "Volt"; txt "Curr"; txt "Tempr"; txt "Tlow";
   txt "Thigh"; txt "Vlow"; txt "Vhigh"; txt "MosTempr"].

(** [try: item[k] = int(item[k]) except Exception: pass] *)
Definition coerce_int (it : item) (k : text) : item :=
  match dict_get k it with
  | Some v =>
      match int_of v with
      | Some z => dict_set k (Int z) it
      | None => it
      end
  | None => it
  end.

(** [try: item["Coulomb"] = int(item["Coulomb"][:-1]) except Exception: pass];
    an integer cannot be sliced, which is one more exception passed over. *)
Definition coerce_coulomb (it : item) : item :=
  match dict_get (txt "Coulomb") it with
  | Some (Str s) =>
      match py_int (Py.slice s None (Some (-1)%Z)) with
      | Some z => dict_set (txt "Coulomb") (Int z) it
      | None => it
      end
  | _ => it
  end.

Definition coerce (it : item) : item :=
  coerce_coulomb (fold_left coerce_int NUMERIC it).

(** [item["Base.St"] == "Absent"]; [None] is the [KeyError]. *)
Definition absent (it : item) : option bool :=
  status <- dict_get (txt "Base.St") it ;;
  Some (value_eqb status (Str (txt "Absent"))).

(** [for line in lines[1:]: ...], with [items] as built so far. *)
Fixpoint rows (colstart : list Z) (headers : list text) (lines : list text)
    (items : list item) : option (list item) :=
  match lines with
  | [] => Some items
  | line :: rest =>
      values <- cells colstart line ;;
      let it := dict_zip headers values in
      skip <- absent it ;;
      if skip then rows colstart headers rest items
      else rows colstart headers rest (items ++ [coerce it])
  end.

(** [response.split("\n")] *)
Definition lines_of (response : text) : list text :=
  Py.split N.eqb newline response.

(** The body of the [try] of [get_power]; [None] is any exception. *)
Definition power_table (response : text) : option (list item) :=
  let lines := lines_of response in
  line0 <- Py.index lines 0 ;;
  let colstart := colstart_of line0 in
  headers <- cells colstart line0 ;;
  rows colstart headers (Py.slice lines (Some 1%Z) None) [].

(** The parsing part of [get_power]: every exception is raised again as
    the [RuntimeError] that carries the response. *)
Definition parsePowerTable (response : text) : result (list item) :=
  match power_table response with
  | Some items => Return items
  | None => Raise (TableParseError response)
  end.

(** [get_power(device, network)]: the command "pwr" with the default
    [retries=1] and [checkframe=True], then the parser. *)
Definition get_power (network : bool) (w : world)
  : result (list item) * world :=
  let (r, w) :=
    (if network then network_command else serial_command)
      (txt "pwr") 1%nat true w in
  match r with
  | Return response => (parsePowerTable response, w)
  | Raise e => (Raise e, w)
  end.

(** ** What a connection delivers

    The vocabulary of the statements below: the bytes a script of reads
    hands over, whether a read raises, how many reads count as idle, and
    whether the connection gets as far as the read loop. *)

(** A read that adds one to [timeout_counter]: a timeout, or on the
    network transport a read that returns no bytes. *)
Definition idle (t : transport) (e : read_event) : bool :=
  match e, t with
  | Timeout, _ => true
  | Data [], Network => true
  | _, _ => false
  end.

Fixpoint received (script : list read_event) : bytes :=
  match script with
  | [] => []
  | Data d :: rest => d ++ received rest
  | _ :: rest => received rest
  end.

Definition data_of (e : read_event) : bytes :=
  match e with Data d => d | _ => [] end.

(** Some read finds the marker in the buffer while bytes are still to
    come; [acc] is the buffer before the first read of [script]. The loop
    then ends before it has read everything. *)
Fixpoint ends_early (mark acc : bytes) (script : list read_event) : bool :=
  match script with
  | [] => false
  | e :: rest =>
      Py.contains Byte.eqb mark acc
      && match received script with [] => false | _ :: _ => true end
      || ends_early mark (acc ++ data_of e) rest
  end.

Definition unbroken (script : list read_event) : bool :=
  forallb (fun e => match e with Failure => false | _ => true end) script.

Definition idle_reads (t : transport) (script : list read_event) : nat :=
  length (filter (idle t) script).

Definition ready (t : transport) (s : session) : bool :=
  opens s
  && match t with Serial => writable s | Network => true end
  && accepts s.

Definition exit_buffer (x : loop_exit) : buffer :=
  match x with Found b | TimedOut b | Failed b => b end.

(** The call as logged, and the world once the call has taken its
    connection. *)
Definition logged (command : text) (retries : nat) (checkframe : bool) : call :=
  {| call_command := command;
     call_retries := retries;
     call_checkframe := checkframe |}.

Definition served (w : world) : session := fst (connect w).

Definition after_call (c : call) (w : world) : world := snd (connect (enter c w)).

Definition ascii_text (s : text) : bool := forallb (fun c => c <? 128)%N s.

(** The well-formed framed response to a command. *)
Definition framed_response (command_bytes payload : bytes) : bytes :=
  command_bytes ++ MARK_BEGIN ++ payload ++ MARK_END.

(** The reads raise nothing, hand over exactly [R], and at most five of
    them are idle. *)
Definition delivers (t : transport) (script : list read_event) (R : bytes)
  : Prop :=
  unbroken script = true /\ received script = R /\ idle_reads t script <= 5.

(** A device that is talked to for the first time. *)
Definition fresh (sessions : list session) : world :=
  {| device := sessions; calls := [] |}.

(** A connection that opens, takes the command and then gives [script]. *)
Definition talking (script : list read_event) : session :=
  {| opens := true; writable := true; accepts := true; reads := script |}.

(** ** What a table holds

    The rows of a response as records, before any is dropped or coerced:
    [dict(zip(headers, values))] for every line after the first. *)

Definition record_of (colstart : list Z) (headers : list text) (line : text)
  : option item :=
  option_map (dict_zip headers) (cells colstart line).

Definition table_records (response : text) : option (list item) :=
  let lines := lines_of response in
  line0 <- Py.index lines 0 ;;
  let colstart := colstart_of line0 in
  headers <- cells colstart line0 ;;
  traverse (record_of colstart headers) (Py.slice lines (Some 1%Z) None).

(** The record has a "Base.St" field. *)
Definition has_status (r : item) : bool :=
  match absent r with Some _ => true | None => false end.

(** The record has a "Base.St" field and it is not "Absent". *)
Definition reported (r : item) : bool :=
  match absent r with Some false => true | _ => false end.

(** Lines joined by newlines. *)
Fixpoint table (lines : list text) : text :=
  match lines with
  | [] => []
  | [l] => l
  | l :: rest => l ++ newline :: table rest
  end.

Definition power_header : text := txt "Base.St Power Volt".
Definition power_row : text := txt "Normal  120   480".

Definition power_record : item :=
  [(txt "Base.St", Str (txt "Normal"));
   (txt "Power", Int 120);
   (txt "Volt", Int 480)].

(** The record the code builds from the two bare lines. *)
Definition clipped_record : item :=
  [(txt "Base.St", Str (txt "Normal"));
   (txt "Power", Int 120);
   (txt "Vol", Str (txt "48"))].

Definition carriage_return : char := 13%N.

(** A table with a present and an absent slot, lines ending in a carriage
    return as the device sends them. *)
Definition two_slots : text :=
  table [txt "Power Base.St Coulomb" ++ [carriage_return];
         txt "120   Normal  91%" ++ [carriage_return];
         txt "-     Absent  -" ++ [carriage_return]].

(** ** Example devices *)

Definition pwr : text := txt "pwr".

(** The text a run of ASCII bytes decodes to. *)
Definition plain (b : bytes) : text := map Byte.to_N b.

(** The response to "pwr" with payload "hello", in three pieces with idle
    reads in between. *)
Definition hello_script : list read_event :=
  [Timeout; Data (b_ "pw"); Data [];
   Data (b_ "r" ++ MARK_BEGIN ++ b_ "hel"); Timeout;
   Data (b_ "lo" ++ MARK_END)].

(** The same response in one read. *)
Definition hello_response : bytes := framed_response (b_ "pwr") (b_ "hello").

(** A payload that itself holds the end marker, and its response in two
    reads, cut right after the first end marker. *)
Definition early_payload : bytes := b_ "x" ++ MARK_END ++ b_ "y".

Definition early_script : list read_event :=
  [Data (b_ "pwr" ++ MARK_BEGIN ++ b_ "x" ++ MARK_END);
   Data (b_ "y" ++ MARK_END)].

(** Six reads that give nothing. *)
Definition silent_script : list read_event := repeat Timeout 6.

(** Six idle reads with data in between, then the rest of the response,
    which is never read. *)
Definition trickle_script : list read_event :=
  [Data (b_ "pwr"); Timeout; Timeout; Data MARK_BEGIN; Timeout;
   Data (b_ "hel"); Timeout; Timeout; Data (b_ "lo"); Timeout].

(** A response that ends in the marker but does not start with the echo
    of the command. *)
Definition garbled (mark_end : bytes) : list read_event :=
  [Data (b_ "garbage" ++ mark_end)].

(** ** Retries, records and columns

    What a failing call leaves in the log, the fields of a record, the
    shape of the column offsets, and lines laid out in fixed-width
    columns. *)

(** What the log gains after the first entry when every attempt of a call
    with [n] retries fails: for each retry the probe, then the command
    again, framed. *)
Fixpoint retry_log (command : text) (n : nat) : list call :=
  match n with
  | 0 => []
  | S m => logged [] 0 false :: logged command m true :: retry_log command m
  end.

(** The attempt on this connection raises, for this [checkframe]. *)
Definition fails (t : transport) (command : text) (command_bytes : bytes)
    (checkframe : bool) (s : session) : Prop :=
  exists e, attempt t command command_bytes checkframe s = Raise e.

(** The connections of failed attempts, each followed by the connection
    its recovery probe takes. *)
Definition failed_rounds (rounds : list (session * session)) : list session :=
  flat_map (fun r => [fst r; snd r]) rounds.

(** The two things the transports treat differently do not occur on this
    connection: if it opens, it is writable and none of its reads returns
    zero bytes. *)
Definition plain_session (s : session) : bool :=
  negb (opens s)
  || writable s
     && forallb (fun e => match e with Data [] => false | _ => true end)
          (reads s).

(** [int(v)] where it succeeds, [v] itself where it raises. *)
Definition coerced (v : value) : value :=
  match int_of v with Some z => Int z | None => v end.

(** The distinct elements of a list, in the order of their first
    occurrence: the keys of [dict(zip(l, ...))]. *)
Definition first_occurrences (l : list text) : list text :=
  fold_left (fun seen h => if existsb (text_eqb h) seen then seen else seen ++ [h])
    l [].

(** One step of [dict(zip(...))]: [d[k] = v]. *)
Definition put (d : item) (kv : text * text) : item :=
  dict_set (fst kv) (Str (snd kv)) d.

(** The column offsets for the matches [ms], starting at [a]: what the
    loop over [re.findall] appends to [colstart = [a]]. *)
Fixpoint offsets (a : Z) (ms : list text) : list Z :=
  match ms with
  | [] => [a]
  | m :: rest => a :: offsets (a + Py.len m) rest
  end.

(** A column layout as [colstart_of] builds it. *)
Definition layout (colstart : list Z) : Prop :=
  exists rest, colstart = 0%Z :: rest /\ Forall (fun c => 2 <= c)%Z rest.

(** [lines[0]] and [lines[1:]] of a response. *)
Definition header_line (response : text) : text := hd [] (lines_of response).

Definition data_lines (response : text) : list text := tl (lines_of response).

(** A cell in its column: the text, then spaces up to the width. *)
Definition pad (width : nat) (cell : text) : text :=
  cell ++ repeat space (width - length cell).

(** A cell with its width, as one column of a line. *)
Definition column (wc : nat * text) : text := pad (fst wc) (snd wc).

(** A line of cells in columns of the given widths. *)
Definition fixed_width (widths : list nat) (values : list text) : text :=
  concat (map column (combine widths values)).

(** The cell leaves at least one space of its column free, has no
    whitespace at either end and no newline. *)
Definition fits (width : nat) (value : text) : Prop :=
  length value < width /\ str_strip value = value /\ ~ In newline value.

(** A column name: not empty, no whitespace, and at least one space of the
    column left free. *)
Definition names (width : nat) (name : text) : Prop :=
  name <> [] /\ length name < width
  /\ forallb (fun c => negb (isspace c)) name = true.

(** No character of the text is a space. *)
Definition spaceless (h : text) : Prop :=
  forallb (fun c => negb (c =? space)%N) h = true.

(** The same conditions on a column given as a pair: [named] for a header
    cell, [roomy] for the width alone. *)
Definition named (wc : nat * text) : Prop := names (fst wc) (snd wc).

Definition roomy (wc : nat * text) : Prop := length (snd wc) < fst wc.

(** What may follow the cells of a line: nothing, or one whitespace
    character other than a newline, such as the carriage return that ends
    the lines of the device. *)
Definition ending (e : text) : Prop :=
  length e <= 1 /\ forallb isspace e = true /\ ~ In newline e.

(** A line of the table: the cells in their columns, then the ending. *)
Definition table_line (widths : list nat) (e : text) (values : list text)
  : text :=
  fixed_width widths values ++ e.

(** A device that cannot be reached twice and then answers "pwr" with a
    table whose only line ends in a newline. *)
Definition late_device : list session :=
  [unreachable; unreachable;
   talking [Data (framed_response (b_ "pwr") (b_ "Power" ++ [LF]))]].

(** The transport [get_power] uses for its [network] flag. *)
Definition transport_of (network : bool) : transport :=
  if network then Network else Serial.

(** * Properties *)

(** ** Facts about sequences *)

Section SequenceFacts.
Context {A : Type} (eqb : A -> A -> bool).
Hypothesis eqb_refl : forall x, eqb x x = true.

Lemma startswith_app (p r : list A) : Py.startswith eqb (p ++ r) p = true.
Proof using eqb_refl.
  induction p as [|x p IH]; simpl; [reflexivity|].
  now rewrite eqb_refl, IH.
Qed.

Lemma startswith_extend (s p t : list A) :
  Py.startswith eqb s p = true -> Py.startswith eqb (s ++ t) p = true.
Proof.
  revert s; induction p as [|y p IH]; intros [|x s]; simpl; try easy.
  intros H; apply andb_true_iff in H as [H1 H2].
  now rewrite H1, IH.
Qed.

Lemma contains_extend (n h t : list A) :
  Py.contains eqb n h = true -> Py.contains eqb n (h ++ t) = true.
Proof.
  induction h as [|x h IH]; simpl; intros H.
  - rewrite orb_false_r in H. destruct n; [|discriminate H].
    destruct t; reflexivity.
  - apply orb_true_iff in H as [H|H].
    + change (x :: h ++ t) with ((x :: h) ++ t).
      now rewrite (startswith_extend _ _ t H).
    + rewrite (IH H). apply orb_true_r.
Qed.

Lemma contains_prefix (n h t : list A) :
  Py.contains eqb n (h ++ t) = false -> Py.contains eqb n h = false.
Proof.
  intros H. destruct (Py.contains eqb n h) eqn:E; [|reflexivity].
  now rewrite (contains_extend _ _ t E) in H.
Qed.

Lemma contains_app (n a : list A) : Py.contains eqb n (a ++ n) = true.
Proof using eqb_refl.
  induction a as [|x a IH]; simpl.
  - destruct n as [|y n]; simpl; [reflexivity|].
    generalize (startswith_app (y :: n) []); rewrite app_nil_r; simpl.
    now intros ->.
  - rewrite IH. apply orb_true_r.
Qed.

Lemma endswith_app (a e : list A) : Py.endswith eqb (a ++ e) e = true.
Proof using eqb_refl.
  unfold Py.endswith. rewrite rev_app_distr. apply startswith_app.
Qed.

Lemma rstrip_by_last (p : A -> bool) (a : list A) (c : A) :
  p c = false -> Py.rstrip_by p (a ++ [c]) = a ++ [c].
Proof.
  intros H. unfold Py.rstrip_by. rewrite rev_app_distr. simpl.
  rewrite H. simpl. now rewrite rev_involutive.
Qed.

Lemma slice_middle (p m e : list A) :
  e <> [] ->
  Py.slice (p ++ m ++ e) (Some (Py.len p)) (Some (- Py.len e)%Z) = m.
Proof.
  intros He. unfold Py.slice, Py.clamp, Py.len.
  assert (0 < length e)%nat by (destruct e; [congruence | simpl; lia]).
  rewrite !length_app.
  replace (Z.of_nat (length p) <? 0)%Z with false by (symmetry; apply Z.ltb_ge; lia).
  replace (- Z.of_nat (length e) <? 0)%Z with true by (symmetry; apply Z.ltb_lt; lia).
  replace (Z.to_nat (Z.min (Z.max (Z.of_nat (length p)) 0)
             (Z.of_nat (length p + (length m + length e)))))
    with (length p) by lia.
  replace (Z.to_nat (Z.min (Z.max (- Z.of_nat (length e)
             + Z.of_nat (length p + (length m + length e))) 0)
             (Z.of_nat (length p + (length m + length e)))))
    with (length p + length m)%nat by lia.
  rewrite skipn_app, skipn_all, Nat.sub_diag. simpl.
  replace (length p + length m - length p)%nat with (length m + 0)%nat by lia.
  rewrite firstn_app_2. simpl. apply app_nil_r.
Qed.

Lemma slice_tail (l : list A) : Py.slice l (Some 1%Z) None = tl l.
Proof.
  destruct l as [|x l]; [reflexivity|].
  unfold Py.slice, Py.clamp, Py.len.
  replace (Z.to_nat (Z.min (Z.max (if (1 <? 0)%Z
             then (1 + Z.of_nat (length (x :: l)))%Z else 1%Z) 0)
             (Z.of_nat (length (x :: l)))))
    with 1%nat by (change (1 <? 0)%Z with false; cbv iota; simpl length; lia).
  simpl. rewrite Nat.sub_0_r. apply firstn_all.
Qed.
End SequenceFacts.

(** ** The read loop *)

Lemma byte_eqb_refl (x : byte) : Byte.eqb x x = true.
Proof. now apply byte_dec_lb. Qed.

Section ReadLoop.
Variable t : transport.
Variable mark : bytes.

Local Abbreviation has_mark := (Py.contains Byte.eqb mark).

Lemma read_loop_unfold (script : list read_event) (b : buffer) :
  read_loop t mark script b =
  if has_mark (response b) then Found b
  else if (5 <? timeout_counter b)%nat then TimedOut b
  else
    match script with
    | [] => TimedOut {| response := response b; timeout_counter := 6 |}
    | Failure :: _ => Failed b
    | e :: rest =>
        if idle t e then
          read_loop t mark rest
            {| response := response b;
               timeout_counter := timeout_counter b + 1 |}
        else
          read_loop t mark rest
            {| response := response b ++ data_of e;
               timeout_counter := timeout_counter b |}
    end.
Proof.
  destruct script as [|[|d|] rest]; try reflexivity.
  destruct t, d; reflexivity.
Qed.

(** A buffer that is a proper prefix of a response in which the marker
    shows up only with the last byte does not contain the marker. *)
Lemma proper_prefix_clean (acc rest : bytes) :
  rest <> [] ->
  has_mark (removelast (acc ++ rest)) = false ->
  has_mark acc = false.
Proof.
  intros Hrest H. rewrite removelast_app in H by exact Hrest.
  exact (contains_prefix _ _ _ _ H).
Qed.

(** The loop hands over the whole response when it does not end early
    and at most five reads are idle. *)
Lemma read_loop_found (R : bytes) :
  has_mark R = true ->
  forall script acc c,
    unbroken script = true ->
    acc ++ received script = R ->
    c + idle_reads t script <= 5 ->
    ends_early mark acc script = false ->
    exists n,
      read_loop t mark script {| response := acc; timeout_counter := c |}
      = Found {| response := R; timeout_counter := n |}.
Proof.
  intros HR. induction script as [|e script IH];
    intros acc c Hub Hacc Hidle Hearly.
  - simpl in Hacc. rewrite app_nil_r in Hacc. subst acc.
    rewrite read_loop_unfold. simpl. rewrite HR. now exists c.
  - rewrite read_loop_unfold. cbn [response timeout_counter].
    cbn [ends_early] in Hearly.
    apply orb_false_iff in Hearly as [Hnow Hlater].
    destruct (has_mark acc) eqn:E.
    + destruct (received (e :: script)) as [|x r] eqn:Er; [|discriminate Hnow].
      rewrite app_nil_r in Hacc. subst acc. now exists c.
    + replace (5 <? c)%nat with false by (symmetry; apply Nat.ltb_ge; lia).
      unfold idle_reads in Hidle.
      destruct e as [|d|]; simpl in Hub, Hacc, Hidle, Hlater; [| |discriminate].
      * rewrite app_nil_r in Hlater. apply IH; auto. unfold idle_reads. lia.
      * destruct d as [|x d]; [destruct t|]; simpl in Hidle |- *.
        -- rewrite app_nil_r in Hlater. apply IH; auto. unfold idle_reads. lia.
        -- rewrite app_nil_r in Hlater |- *. apply IH; auto.
        -- apply IH; auto. now rewrite <- app_assoc.
Qed.

(** A response in which the marker is complete only with the last byte
    cannot end the loop early, however it is cut into reads. *)
Lemma clean_response_never_ends_early :
  forall script acc,
    has_mark (removelast (acc ++ received script)) = false ->
    ends_early mark acc script = false.
Proof.
  induction script as [|e script IH]; intros acc H; [reflexivity|].
  cbn [ends_early]. apply orb_false_iff. split.
  - destruct (received (e :: script)) as [|x r] eqn:Er;
      [apply andb_false_r|].
    now rewrite (proper_prefix_clean acc (x :: r)).
  - apply IH. rewrite <- app_assoc.
    replace (data_of e ++ received script) with (received (e :: script))
      by (now destruct e).
    exact H.
Qed.


(** Six idle reads before the marker is complete raise the timeout,
    whatever data was read in between and whatever would follow. *)
Lemma read_loop_idle_out :
  forall pre post acc c,
    unbroken pre = true ->
    has_mark (acc ++ received pre) = false ->
    c <= 6 ->
    6 <= c + idle_reads t pre ->
    exists r,
      read_loop t mark (pre ++ post) {| response := acc; timeout_counter := c |}
      = TimedOut {| response := r; timeout_counter := 6 |}.
Proof.
  induction pre as [|e pre IH]; intros post acc c Hub Hno Hc Hidle;
    rewrite read_loop_unfold; cbn [response timeout_counter];
    rewrite (contains_prefix _ _ _ _ Hno);
    destruct (5 <? c)%nat eqn:E5.
  - apply Nat.ltb_lt in E5. assert (c = 6) by lia. subst c. now exists acc.
  - apply Nat.ltb_ge in E5. unfold idle_reads in Hidle. simpl in Hidle. lia.
  - apply Nat.ltb_lt in E5. assert (c = 6) by lia. subst c. now exists acc.
  - apply Nat.ltb_ge in E5. unfold idle_reads in Hidle.
    destruct e as [|d|]; simpl in Hub, Hno, Hidle; [| |discriminate].
    + simpl. apply IH; auto; unfold idle_reads; lia.
    + destruct d as [|x d]; [destruct t|]; simpl in Hidle |- *.
      * apply IH; auto; unfold idle_reads; lia.
      * rewrite app_nil_r. apply IH; auto.
      * apply IH; [assumption | now rewrite <- app_assoc | lia | unfold idle_reads; lia].
Qed.

(** Once the reads have given the marker, with at most five idle reads
    on the way, the loop ends normally, however many reads that took. *)
Lemma read_loop_terminates :
  forall pre post acc c,
    unbroken pre = true ->
    has_mark (acc ++ received pre) = true ->
    c + idle_reads t pre <= 5 ->
    exists b,
      read_loop t mark (pre ++ post) {| response := acc; timeout_counter := c |}
      = Found b
      /\ has_mark (response b) = true
      /\ timeout_counter b <= 5.
Proof.
  induction pre as [|e pre IH]; intros post acc c Hub Hyes Hidle;
    rewrite read_loop_unfold; cbn [response timeout_counter];
    destruct (has_mark acc) eqn:E.
  - eexists; split; [reflexivity|]. unfold idle_reads in Hidle. simpl in *. split; [exact E|lia].
  - simpl in Hyes. rewrite app_nil_r in Hyes. congruence.
  - eexists; split; [reflexivity|]. unfold idle_reads in Hidle. simpl in *. split; [exact E|lia].
  - replace (5 <? c)%nat with false by (symmetry; apply Nat.ltb_ge; lia).
    unfold idle_reads in Hidle.
    destruct e as [|d|]; simpl in Hub, Hyes, Hidle; [| |discriminate].
    + simpl. apply IH; auto; unfold idle_reads; lia.
    + destruct d as [|x d]; [destruct t|]; simpl in Hidle |- *.
      * apply IH; auto; unfold idle_reads; lia.
      * rewrite app_nil_r. apply IH; auto.
      * apply IH; auto. now rewrite <- app_assoc.
Qed.

(** The buffer the loop ends on normally holds the marker, and it is
    what the start held followed by a prefix of what the reads give. *)
Lemma read_loop_found_prefix :
  forall script b0 b,
    read_loop t mark script b0 = Found b ->
    has_mark (response b) = true
    /\ exists tail, response b0 ++ received script = response b ++ tail.
Proof.
  induction script as [|e script IH]; intros b0 b; rewrite read_loop_unfold;
    destruct (has_mark (response b0)) eqn:E;
    try (intros [= <-]; split; [exact E | now eexists]);
    destruct (5 <? timeout_counter b0)%nat; try discriminate.
  destruct e as [|d|]; [| |discriminate].
  - intros H. destruct (IH _ _ H) as (Hm & tail & Ht). split; [exact Hm|].
    exists tail. exact Ht.
  - destruct (idle t (Data d)) eqn:Ei; intros H;
      destruct (IH _ _ H) as (Hm & tail & Ht); (split; [exact Hm|]);
      exists tail; cbn [response received] in Ht |- *.
    + destruct d; [|now destruct t]. exact Ht.
    + now rewrite app_assoc.
Qed.

(** The counter never goes down. *)
Lemma read_loop_counter_grows :
  forall script b,
    timeout_counter b <= timeout_counter (exit_buffer (read_loop t mark script b)).
Proof.
  induction script as [|e script IH]; intros b; rewrite read_loop_unfold;
    destruct (has_mark (response b)); [simpl; lia| |simpl; lia|];
    destruct (5 <? timeout_counter b)%nat eqn:E5; try (simpl; lia).
  - apply Nat.ltb_ge in E5. simpl. lia.
  - destruct e as [|d|]; [| |simpl; lia].
    + simpl. etransitivity; [|apply IH]. simpl. lia.
    + destruct (idle t (Data d)); (etransitivity; [|apply IH]); simpl; lia.
Qed.
End ReadLoop.

(** ** One call of the command function *)

Lemma encode_ascii (s : text) :
  ascii_text s = true -> encode s = Some (map byte_of_N s).
Proof.
  induction s as [|c s IH]; simpl; [reflexivity|].
  intros H. apply andb_true_iff in H as [Hc Hs].
  unfold encode_char. rewrite Hc, (IH Hs). reflexivity.
Qed.

Lemma encode_ascii_length (command : text) (command_bytes : bytes) :
  ascii_text command = true ->
  encode command = Some command_bytes ->
  Py.len command = Py.len command_bytes.
Proof.
  intros Ha He. rewrite (encode_ascii _ Ha) in He. injection He as <-.
  unfold Py.len. now rewrite length_map.
Qed.

Lemma rstrip_marked (checkframe : bool) (a : bytes) :
  bytes_rstrip (a ++ mark_end_of checkframe) = a ++ mark_end_of checkframe.
Proof.
  assert (E : mark_end_of checkframe
              = removelast (mark_end_of checkframe) ++ [x3e])
    by (destruct checkframe; reflexivity).
  rewrite E at 1 2. rewrite app_assoc.
  now apply rstrip_by_last.
Qed.

Lemma try_command_encoded t command retries checkframe w command_bytes :
  encode command = Some command_bytes ->
  try_command t command retries checkframe w
  = (match attempt t command command_bytes checkframe (served w) with
     | Return r => Returned r
     | Raise e => Caught e
     end,
     after_call (logged command retries checkframe) w).
Proof.
  intros He. unfold try_command, served, after_call, logged, connect, enter.
  rewrite He. cbn [device calls].
  destruct (device w) as [|s rest]; cbn [fst snd];
    destruct (attempt t command command_bytes checkframe _); reflexivity.
Qed.

(** A call whose attempt returns, returns that. *)
Lemma command_returns t command retries checkframe w command_bytes r :
  encode command = Some command_bytes ->
  attempt t command command_bytes checkframe (served w) = Return r ->
  transport_command t command retries checkframe w
  = (Return r, after_call (logged command retries checkframe) w).
Proof.
  intros He Ha. destruct retries as [|n].
  - rewrite transport_command_equation_1, (try_command_encoded _ _ _ _ _ _ He), Ha.
    reflexivity.
  - rewrite transport_command_equation_2, (try_command_encoded _ _ _ _ _ _ He), Ha.
    reflexivity.
Qed.

(** With no retry left, a caught exception becomes [CommandFailed]. *)
Lemma command_gives_up t command checkframe w command_bytes e :
  encode command = Some command_bytes ->
  attempt t command command_bytes checkframe (served w) = Raise e ->
  transport_command t command 0 checkframe w
  = (Raise (CommandFailed command), after_call (logged command 0 checkframe) w).
Proof.
  intros He Ha.
  rewrite transport_command_equation_1, (try_command_encoded _ _ _ _ _ _ He), Ha.
  reflexivity.
Qed.

(** With a retry left, the probe runs on the next connection and the command
    is sent again, framed, on the one after. *)
Lemma command_retries t command n checkframe w command_bytes e :
  encode command = Some command_bytes ->
  attempt t command command_bytes checkframe (served w) = Raise e ->
  transport_command t command (S n) checkframe w
  = transport_command t command n true
      (snd (transport_command t [] 0 false
              (after_call (logged command (S n) checkframe) w))).
Proof.
  intros He Ha.
  rewrite transport_command_equation_2, (try_command_encoded _ _ _ _ _ _ He), Ha.
  cbn. destruct (transport_command t [] 0 false _); reflexivity.
Qed.

(** The probe takes one connection and logs one call, whatever happens. *)
Lemma probe_world t w :
  snd (transport_command t [] 0 false w) = after_call (logged [] 0 false) w.
Proof.
  rewrite transport_command_equation_1.
  rewrite (try_command_encoded t [] 0 false w [] eq_refl).
  destruct (attempt t [] [] false (served w)); reflexivity.
Qed.

Lemma attempt_ready t command command_bytes checkframe s :
  ready t s = true ->
  attempt t command command_bytes checkframe s
  = match read_loop t (mark_end_of checkframe) (reads s) empty_buffer with
    | TimedOut _ => Raise ReadTimeout
    | Failed _ => Raise ReadError
    | Found b =>
        let response := bytes_rstrip (response b) in
        if checkframe then
          if negb (frame_ok command_bytes (mark_end_of checkframe) response)
          then Raise FrameCorrupt
          else
            decode_response
              (Py.slice response
                 (Some (Py.len command + Py.len MARK_BEGIN)%Z)
                 (Some (- Py.len (mark_end_of checkframe))%Z))
        else decode_response response
    end.
Proof.
  unfold ready, attempt. intros H.
  apply andb_true_iff in H as [H Hacc]. apply andb_true_iff in H as [Hop Hwr].
  rewrite Hop, Hacc. destruct t; [|rewrite Hwr]; reflexivity.
Qed.

(** ** The engine: returning the payload *)

Lemma framed_response_marked (command_bytes payload : bytes) :
  Py.contains Byte.eqb MARK_END (framed_response command_bytes payload) = true.
Proof.
  unfold framed_response. rewrite 2!app_assoc.
  apply contains_app, byte_eqb_refl.
Qed.

(** What the code after the loop makes of a complete framed response. *)
Lemma unwrap_framed_response (command : text) (command_bytes payload : bytes) :
  Py.len command = Py.len command_bytes ->
  let response := bytes_rstrip (framed_response command_bytes payload) in
  frame_ok command_bytes MARK_END response = true
  /\ Py.slice response (Some (Py.len command + Py.len MARK_BEGIN)%Z)
       (Some (- Py.len MARK_END)%Z) = payload.
Proof.
  intros Hlen response. subst response. unfold framed_response.
  replace (command_bytes ++ MARK_BEGIN ++ payload ++ MARK_END)
    with ((command_bytes ++ MARK_BEGIN ++ payload) ++ mark_end_of true)
    by (now rewrite <- !app_assoc).
  rewrite rstrip_marked. cbn [mark_end_of]. split.
  - unfold frame_ok. rewrite endswith_app by apply byte_eqb_refl.
    rewrite <- !app_assoc, app_assoc.
    now rewrite startswith_app by apply byte_eqb_refl.
  - rewrite Hlen.
    replace (Py.len command_bytes + Py.len MARK_BEGIN)%Z
      with (Py.len (command_bytes ++ MARK_BEGIN))
      by (unfold Py.len; rewrite length_app; lia).
    rewrite <- !app_assoc, app_assoc.
    apply slice_middle. discriminate.
Qed.

(** C1, as amended: for an ASCII command and a payload that decodes, a
    connection that hands over exactly command + BEGIN + payload + END, in
    any number of pieces and with at most five idle reads, makes the framed
    call return the decoded payload, provided no read finds END in the
    buffer while bytes of the response are still to come. Holds for both
    transports and for any number of retries left; the call uses one
    connection and logs one call. *)
Theorem framed_call_returns_payload
    (t : transport) (command : text) (command_bytes payload : bytes)
    (reply : text) (s : session) (rest : list session) (log : list call)
    (retries : nat) :
  ascii_text command = true ->
  encode command = Some command_bytes ->
  decode payload = Some reply ->
  ready t s = true ->
  delivers t (reads s) (framed_response command_bytes payload) ->
  ends_early MARK_END [] (reads s) = false ->
  transport_command t command retries true
    {| device := s :: rest; calls := log |}
  = (Return reply,
     {| device := rest; calls := log ++ [logged command retries true] |}).
Proof.
  intros Hascii Henc Hdec Hready (Hub & Hrec & Hidle) Hearly.
  rewrite (command_returns t command retries true
             {| device := s :: rest; calls := log |} command_bytes reply Henc);
    [reflexivity|].
  cbn [served connect device fst].
  rewrite attempt_ready by exact Hready.
  destruct (read_loop_found t MARK_END _ (framed_response_marked _ _)
              (reads s) [] 0 Hub Hrec Hidle Hearly) as [n Hn].
  unfold empty_buffer. cbn [mark_end_of]. rewrite Hn. cbn [response].
  destruct (unwrap_framed_response command command_bytes payload
              (encode_ascii_length _ _ Hascii Henc)) as [Hok Hslice].
  cbv zeta in Hok, Hslice. rewrite Hok, Hslice. cbn [negb].
  unfold decode_response. now rewrite Hdec.
Qed.

(** Two cases in which no read finds END early: the response comes in one
    read, or END occurs in it only at its very end. *)
Lemma one_read_never_ends_early (R : bytes) :
  ends_early MARK_END [] [Data R] = false.
Proof. reflexivity. Qed.

Lemma framed_response_never_ends_early
    (command_bytes payload : bytes) (script : list read_event) :
  received script = framed_response command_bytes payload ->
  Py.contains Byte.eqb MARK_END
    (removelast (framed_response command_bytes payload)) = false ->
  ends_early MARK_END [] script = false.
Proof.
  intros Hrec Hclean. apply clean_response_never_ends_early.
  cbn [app]. now rewrite Hrec.
Qed.

Lemma framed_call_returns_payload_witness :
  network_command pwr 1 true (fresh [talking hello_script])
  = (Return (txt "hello"),
     {| device := []; calls := [logged pwr 1 true] |}).
Proof.
  apply (framed_call_returns_payload Network pwr (b_ "pwr") (b_ "hello")
           (txt "hello") (talking hello_script) [] [] 1);
    try reflexivity.
  repeat split; try reflexivity. vm_compute. lia.
Defined.

(** C1 as stated fails: the transport hands over exactly
    command + BEGIN + payload + END, in two reads, and the call returns
    "x", which is not the payload. The loop stops at the first buffer that
    holds the end marker, and that buffer is itself a well-formed frame. *)
Lemma framed_call_truncates_payload :
  ascii_text pwr = true
  /\ encode pwr = Some (b_ "pwr")
  /\ decode early_payload = Some (plain early_payload)
  /\ delivers Network early_script (framed_response (b_ "pwr") early_payload)
  /\ ends_early MARK_END [] early_script = true
  /\ fst (network_command pwr 0 true (fresh [talking early_script]))
     = Return (txt "x")
  /\ txt "x" <> plain early_payload.
Proof.
  repeat split; try reflexivity.
  - vm_compute. lia.
  - discriminate.
Qed.

(** ** The engine: timeouts *)




(** ** The engine: corrupt frames *)




(** ** The engine: retries *)

(** C7: with one retry and a first attempt that fails, the probe takes the
    next connection, whatever that connection does, and the command is sent
    once more on the one after; when that attempt, which is framed,
    succeeds, its payload is what the call returns. The log holds the failed
    call, one probe (empty command, unframed, no retry) and the retry. *)
Theorem retry_returns_second_payload
    (t : transport) (command : text) (command_bytes : bytes)
    (checkframe : bool) (s1 probe s2 : session) (rest : list session)
    (log : list call) (e : exn) (r : text) :
  encode command = Some command_bytes ->
  attempt t command command_bytes checkframe s1 = Raise e ->
  attempt t command command_bytes true s2 = Return r ->
  transport_command t command 1 checkframe
    {| device := s1 :: probe :: s2 :: rest; calls := log |}
  = (Return r,
     {| device := rest;
        calls := log ++ [logged command 1 checkframe;
                         logged [] 0 false;
                         logged command 0 true] |}).
Proof.
  intros Henc Hfail Hok.
  rewrite (command_retries t command 0 checkframe
             {| device := s1 :: probe :: s2 :: rest; calls := log |}
             command_bytes e Henc Hfail).
  rewrite probe_world.
  rewrite (command_returns t command 0 true _ command_bytes r Henc); [|exact Hok].
  unfold after_call, connect, enter. cbn [device calls snd].
  now rewrite <- !app_assoc.
Qed.

Lemma retry_returns_second_payload_witness :
  network_command pwr 1 true
    (fresh [talking silent_script; unreachable; talking hello_script])
  = (Return (txt "hello"),
     {| device := [];
        calls := [logged pwr 1 true; logged [] 0 false; logged pwr 0 true] |}).
Proof.
  apply (retry_returns_second_payload Network pwr (b_ "pwr") true
           (talking silent_script) unreachable (talking hello_script) [] []
           ReadTimeout (txt "hello")); reflexivity.
Defined.

(** C4, on the code: an unframed call with one retry whose first attempt
    fails sends the command again framed. The device answers the retry
    with a whole frame, and the call returns the payload alone, where an
    unframed call on the same connection returns the whole transcript; when
    the device answers with the prompt alone, the framed retry times out
    and the call fails, where an unframed call returns. The same holds for
    the serial function. *)
Theorem unframed_retry_is_framed :
  network_command pwr 1 false
    (fresh [unreachable; talking [Data MARK_PROMPT]; talking [Data hello_response]])
  = (Return (txt "hello"),
     {| device := [];
        calls := [logged pwr 1 false; logged [] 0 false; logged pwr 0 true] |})
  /\ fst (network_command pwr 0 false (fresh [talking [Data hello_response]]))
     = Return (plain hello_response)
  /\ fst (network_command pwr 1 false
            (fresh [unreachable; talking [Data MARK_PROMPT];
                    talking [Data (b_ "ok" ++ MARK_PROMPT)]]))
     = Raise (CommandFailed pwr)
  /\ fst (network_command pwr 0 false
            (fresh [talking [Data (b_ "ok" ++ MARK_PROMPT)]]))
     = Return (plain (b_ "ok" ++ MARK_PROMPT))
  /\ snd (serial_command pwr 1 false
            (fresh [unreachable; talking [Data MARK_PROMPT];
                    talking [Data hello_response]]))
     = {| device := [];
          calls := [logged pwr 1 false; logged [] 0 false; logged pwr 0 true] |}.
Proof.
  repeat split; vm_compute; reflexivity.
Qed.

(** ** The engine: the idle counter *)

(** What holds of the counter for both transports: in one run of the read
    loop it never goes down; a read that is not idle appends its data and
    leaves the counter as it is, an idle read adds one; so six idle reads in
    total, with any data in between, raise the timeout, and with at most
    five idle reads the loop ends normally once the data read holds the
    terminator, however many reads that takes. Here a read is idle in the
    sense of [idle]: it times out or, for the network transport only,
    returns no bytes. *)
Theorem idle_counter_only_grows (t : transport) (mark : bytes) :
  (forall script b,
      timeout_counter b
      <= timeout_counter (exit_buffer (read_loop t mark script b)))
  /\ (forall e rest b,
      Py.contains Byte.eqb mark (response b) = false ->
      timeout_counter b <= 5 ->
      e <> Failure ->
      read_loop t mark (e :: rest) b
      = read_loop t mark rest
          (if idle t e
           then {| response := response b;
                   timeout_counter := timeout_counter b + 1 |}
           else {| response :=
                     response b ++ data_of e;
                   timeout_counter := timeout_counter b |}))
  /\ (forall pre post,
      unbroken pre = true ->
      Py.contains Byte.eqb mark (received pre) = false ->
      6 <= idle_reads t pre ->
      exists r,
        read_loop t mark (pre ++ post) empty_buffer
        = TimedOut {| response := r; timeout_counter := 6 |})
  /\ (forall pre post,
      unbroken pre = true ->
      Py.contains Byte.eqb mark (received pre) = true ->
      idle_reads t pre <= 5 ->
      exists b,
        read_loop t mark (pre ++ post) empty_buffer = Found b
        /\ Py.contains Byte.eqb mark (response b) = true).
Proof.
  split; [apply read_loop_counter_grows|]. split; [|split].
  - intros e rest b Hno Hc He. rewrite read_loop_unfold, Hno.
    replace (5 <? timeout_counter b)%nat with false
      by (symmetry; apply Nat.ltb_ge; lia).
    destruct e as [|d|]; [| |congruence];
      destruct (idle t _); reflexivity.
  - intros pre post Hub Hno Hidle.
    apply read_loop_idle_out; auto. lia.
  - intros pre post Hub Hyes Hidle.
    destruct (read_loop_terminates t mark pre post [] 0 Hub Hyes Hidle)
      as (b & Hb & Hmark & _).
    now exists b.
Qed.

Lemma idle_counter_only_grows_witness :
  idle_reads Network trickle_script = 6
  /\ exists r,
      read_loop Network MARK_END (trickle_script ++ [Data MARK_END]) empty_buffer
      = TimedOut {| response := r; timeout_counter := 6 |}.
Proof.
  split; [reflexivity|].
  apply (proj1 (proj2 (proj2 (idle_counter_only_grows Network MARK_END))));
    [reflexivity | reflexivity | vm_compute; lia].
Defined.

(** C9, on the code: [serial_command] does not count a read that returns
    no bytes. After any number of such reads the counter is still 0 and the
    response that follows is read and returned; [network_command] raises
    its timeout on the same six reads. *)
Theorem serial_empty_read_is_not_counted :
  (forall n,
      read_loop Serial MARK_END
        (repeat (Data []) n ++ [Data hello_response]) empty_buffer
      = Found {| response := hello_response; timeout_counter := 0 |})
  /\ read_loop Network MARK_END
       (repeat (Data []) 6 ++ [Data hello_response]) empty_buffer
     = TimedOut {| response := []; timeout_counter := 6 |}
  /\ fst (serial_command pwr 0 true
            (fresh [talking (repeat (Data []) 6 ++ [Data hello_response])]))
     = Return (txt "hello")
  /\ fst (network_command pwr 0 true
            (fresh [talking (repeat (Data []) 6 ++ [Data hello_response])]))
     = Raise (CommandFailed pwr).
Proof.
  split; [|repeat split; reflexivity].
  induction n as [|n IH]; [reflexivity|].
  simpl repeat. cbn [app]. rewrite read_loop_unfold.
  cbn [empty_buffer response timeout_counter idle].
  replace (Py.contains Byte.eqb MARK_END []) with false by reflexivity.
  cbn [Nat.ltb Nat.leb]. rewrite app_nil_r. exact IH.
Qed.

(** No number of reads is too many: a response that trickles in one byte
    per read, over [n] reads, is still read to its end. *)
Lemma slow_response_is_read (t : transport) (n : nat) :
  exists b,
    read_loop t MARK_END (repeat (Data (b_ "A")) n ++ [Data MARK_END])
      empty_buffer
    = Found b.
Proof.
  assert (Hub : forall k,
             unbroken (repeat (Data (b_ "A")) k ++ [Data MARK_END]) = true)
    by (induction k; [reflexivity | exact IHk]).
  assert (Hidle : forall k,
             idle_reads t (repeat (Data (b_ "A")) k ++ [Data MARK_END]) = 0)
    by (induction k; [destruct t; reflexivity | exact IHk]).
  assert (Hrec : forall k,
             received (repeat (Data (b_ "A")) k ++ [Data MARK_END])
             = repeat "A"%byte k ++ MARK_END).
  { induction k; [reflexivity|]. simpl repeat. cbn [app received].
    rewrite IHk. reflexivity. }
  destruct (read_loop_terminates t MARK_END
              (repeat (Data (b_ "A")) n ++ [Data MARK_END]) [] [] 0 (Hub n))
    as (b & Hb & _).
  - cbn [app]. rewrite Hrec. apply contains_app, byte_eqb_refl.
  - rewrite Hidle. lia.
  - rewrite app_nil_r in Hb. now exists b.
Qed.

(** ** The parser: records *)

Lemma text_eqb_eq (s t : text) : text_eqb s t = true <-> s = t.
Proof.
  unfold text_eqb. destruct (list_eq_dec N.eq_dec s t); split; congruence.
Qed.

Lemma text_eqb_refl (s : text) : text_eqb s s = true.
Proof. now apply text_eqb_eq. Qed.

Lemma text_eqb_neq (s t : text) : s <> t -> text_eqb s t = false.
Proof.
  intros H. destruct (text_eqb s t) eqn:E; [|reflexivity].
  now apply text_eqb_eq in E.
Qed.

Lemma value_eqb_eq (a b : value) : value_eqb a b = true <-> a = b.
Proof.
  destruct a as [s|x], b as [u|y]; simpl; split; try congruence.
  - intros H. apply text_eqb_eq in H. congruence.
  - intros [= ->]. apply text_eqb_refl.
  - intros H. apply Z.eqb_eq in H. congruence.
  - intros [= ->]. apply Z.eqb_refl.
Qed.

Lemma dict_get_set_same (k : text) (v : value) (d : item) :
  dict_get k (dict_set k v d) = Some v.
Proof.
  induction d as [|[k' v'] d IH]; simpl.
  - now rewrite text_eqb_refl.
  - destruct (text_eqb k k') eqn:E; simpl; now rewrite E.
Qed.

Lemma dict_get_set_other (k k' : text) (v : value) (d : item) :
  k <> k' -> dict_get k (dict_set k' v d) = dict_get k d.
Proof.
  intros Hne. induction d as [|[k2 v2] d IH]; simpl.
  - now rewrite text_eqb_neq.
  - destruct (text_eqb k' k2) eqn:E; simpl.
    + apply text_eqb_eq in E. subst k2. now rewrite text_eqb_neq.
    + destruct (text_eqb k k2); [reflexivity|exact IH].
Qed.

Lemma coerce_int_other (k k' : text) (it : item) :
  k <> k' -> dict_get k (coerce_int it k') = dict_get k it.
Proof.
  intros Hne. unfold coerce_int.
  destruct (dict_get k' it) as [v|]; [|reflexivity].
  destruct (int_of v); [|reflexivity].
  now apply dict_get_set_other.
Qed.

Lemma coerce_ints_other (k : text) (keys : list text) (it : item) :
  Forall (fun k' => k <> k') keys ->
  dict_get k (fold_left coerce_int keys it) = dict_get k it.
Proof.
  intros H. revert it. induction H as [|k' keys Hk _ IH]; intros it; simpl.
  - reflexivity.
  - rewrite IH. now apply coerce_int_other.
Qed.

Lemma coerce_coulomb_other (k : text) (it : item) :
  k <> txt "Coulomb" -> dict_get k (coerce_coulomb it) = dict_get k it.
Proof.
  intros Hne. unfold coerce_coulomb.
  destruct (dict_get (txt "Coulomb") it) as [[s|z]|]; try reflexivity.
  destruct (py_int _); [|reflexivity].
  now apply dict_get_set_other.
Qed.

(** The coercions leave the status field alone. *)
Lemma coerce_keeps_status (it : item) :
  dict_get (txt "Base.St") (coerce it) = dict_get (txt "Base.St") it.
Proof.
  unfold coerce. rewrite coerce_coulomb_other by discriminate.
  apply coerce_ints_other. unfold NUMERIC.
  repeat constructor; discriminate.
Qed.

(** C3, as amended: the Coulomb coercion always parses the cell text
    without its last character. When that is an integer literal the field
    becomes that integer, whether or not the dropped character was a unit
    (so "4500C" gives 4500 and a bare "4500" gives 450); otherwise the
    record keeps the text. *)
Theorem coulomb_drops_last_character (it : item) (s : text) :
  dict_get (txt "Coulomb") it = Some (Str s) ->
  dict_get (txt "Coulomb") (coerce it)
  = Some match py_int (Py.slice s None (Some (-1)%Z)) with
         | Some z => Int z
         | None => Str s
         end.
Proof.
  intros H. unfold coerce.
  assert (H' : dict_get (txt "Coulomb") (fold_left coerce_int NUMERIC it)
               = Some (Str s)).
  { rewrite <- H. apply coerce_ints_other. unfold NUMERIC.
    repeat constructor; discriminate. }
  unfold coerce_coulomb. rewrite H'.
  destruct (py_int _) as [z|]; [apply dict_get_set_same | exact H'].
Qed.

Lemma coulomb_drops_last_character_witness :
  dict_get (txt "Coulomb")
    (coerce [(txt "Base.St", Str (txt "Normal"));
             (txt "Coulomb", Str (txt "4500C"))])
  = Some (Int 4500)
  /\ dict_get (txt "Coulomb")
       (coerce [(txt "Base.St", Str (txt "Normal"));
                (txt "Coulomb", Str (txt "n/a"))])
     = Some (Str (txt "n/a")).
Proof.
  split.
  - exact (coulomb_drops_last_character
             [(txt "Base.St", Str (txt "Normal"));
              (txt "Coulomb", Str (txt "4500C"))] (txt "4500C") eq_refl).
  - exact (coulomb_drops_last_character
             [(txt "Base.St", Str (txt "Normal"));
              (txt "Coulomb", Str (txt "n/a"))] (txt "n/a") eq_refl).
Defined.

(** C3 as stated fails: a Coulomb cell of bare digits is coerced all the
    same, to the number without its last digit. *)
Lemma bare_coulomb_is_coerced :
  coerce [(txt "Base.St", Str (txt "Normal"));
          (txt "Coulomb", Str (txt "4500"))]
  = [(txt "Base.St", Str (txt "Normal")); (txt "Coulomb", Int 450)]
  /\ coerce [(txt "Base.St", Str (txt "Normal"));
             (txt "Coulomb", Str (txt "4500"))]
     <> [(txt "Base.St", Str (txt "Normal"));
         (txt "Coulomb", Str (txt "4500"))].
Proof.
  split; [reflexivity|]. vm_compute. discriminate.
Qed.

(** ** The parser: which rows are reported *)

Lemma traverse_fails {A B : Type} (f : A -> option B) (l : list A) (x : A) :
  In x l -> f x = None -> traverse f l = None.
Proof.
  intros Hin Hx. induction l as [|y l IH]; [contradiction|].
  simpl. destruct Hin as [->|Hin].
  - now rewrite Hx.
  - rewrite (IH Hin). now destruct (f y).
Qed.

(** The loop over the lines, all at once: it fails when a line has no
    cells or a record no status, and otherwise appends the coerced
    records whose status is not "Absent", in order. *)
Lemma rows_spec (colstart : list Z) (headers : list text) :
  forall lines items,
    rows colstart headers lines items
    = (records <- traverse (record_of colstart headers) lines ;;
       if forallb has_status records
       then Some (items ++ map coerce (filter reported records))
       else None).
Proof.
  induction lines as [|line lines IH]; intros items; cbn [rows traverse].
  - cbn. now rewrite app_nil_r.
  - unfold record_of at 1.
    destruct (cells colstart line) as [values|]; cbn [option_map];
      [|reflexivity].
    set (it := dict_zip headers values).
    destruct (absent it) as [[|]|] eqn:E.
    + assert (Hs : has_status it = true) by (unfold has_status; now rewrite E).
      assert (Hr : reported it = false) by (unfold reported; now rewrite E).
      rewrite IH. destruct (traverse _ lines) as [records|]; [|reflexivity].
      cbn [forallb filter]. now rewrite Hs, Hr.
    + assert (Hs : has_status it = true) by (unfold has_status; now rewrite E).
      assert (Hr : reported it = true) by (unfold reported; now rewrite E).
      rewrite IH. destruct (traverse _ lines) as [records|]; [|reflexivity].
      cbn [forallb filter]. rewrite Hs, Hr. cbn [andb map].
      now rewrite <- app_assoc.
    + assert (Hs : has_status it = false) by (unfold has_status; now rewrite E).
      destruct (traverse _ lines) as [records|]; [|reflexivity].
      cbn [forallb]. now rewrite Hs.
Qed.

Lemma power_table_spec (response : text) :
  power_table response
  = (records <- table_records response ;;
     if forallb has_status records
     then Some (map coerce (filter reported records))
     else None).
Proof.
  unfold power_table, table_records.
  destruct (Py.index (lines_of response) 0) as [line0|]; [|reflexivity].
  destruct (cells (colstart_of line0) line0) as [headers|]; [|reflexivity].
  apply rows_spec.
Qed.

(** The parser returns exactly when every line has its cells and every
    record a status. *)
Lemma parse_returns (response : text) (records : list item) :
  table_records response = Some records ->
  forallb has_status records = true ->
  parsePowerTable response = Return (map coerce (filter reported records)).
Proof.
  intros Hr Hs. unfold parsePowerTable.
  now rewrite power_table_spec, Hr, Hs.
Qed.

Lemma reported_status (r : item) :
  reported r = true <->
  exists v, dict_get (txt "Base.St") r = Some v /\ v <> Str (txt "Absent").
Proof.
  unfold reported, absent.
  destruct (dict_get (txt "Base.St") r) as [v|]; split.
  - destruct (value_eqb v _) eqn:E; [discriminate|]. intros _.
    exists v. split; [reflexivity|]. intros ->.
    now rewrite (proj2 (value_eqb_eq _ _) eq_refl) in E.
  - intros (v' & [= <-] & Hne).
    destruct (value_eqb v _) eqn:E; [|reflexivity].
    now apply value_eqb_eq in E.
  - discriminate.
  - now intros (v & H & _).
Qed.

(** C8: when the parser returns, what it returns is the rows of the table
    whose status is not "Absent", coerced, in order. So every record it
    returns has a status other than "Absent", no row with status "Absent"
    is among them, and every other row is. *)
Theorem absent_rows_are_dropped (response : text) (items : list item) :
  parsePowerTable response = Return items ->
  exists records,
    table_records response = Some records
    /\ items = map coerce (filter reported records)
    /\ (forall it, In it items ->
        exists v, dict_get (txt "Base.St") it = Some v
                  /\ v <> Str (txt "Absent"))
    /\ (forall r, In r records ->
        dict_get (txt "Base.St") r = Some (Str (txt "Absent")) ->
        ~ In (coerce r) items)
    /\ (forall r, In r records ->
        dict_get (txt "Base.St") r <> Some (Str (txt "Absent")) ->
        In (coerce r) items).
Proof.
  unfold parsePowerTable. rewrite power_table_spec.
  destruct (table_records response) as [records|]; [|discriminate].
  destruct (forallb has_status records) eqn:Hall; [|discriminate].
  intros [= <-]. exists records.
  assert (Hitems : forall it,
             In it (map coerce (filter reported records)) ->
             exists v, dict_get (txt "Base.St") it = Some v
                       /\ v <> Str (txt "Absent")).
  { intros it Hin. apply in_map_iff in Hin as (r & <- & Hr).
    apply filter_In in Hr as [_ Hr]. rewrite coerce_keeps_status.
    now apply reported_status. }
  repeat split; auto.
  - intros r _ Habs Hin. destruct (Hitems _ Hin) as (v & Hv & Hne).
    rewrite coerce_keeps_status in Hv. congruence.
  - intros r Hin Hne. apply in_map, filter_In. split; [exact Hin|].
    apply reported_status.
    rewrite forallb_forall in Hall. specialize (Hall r Hin).
    unfold has_status, absent in Hall.
    destruct (dict_get (txt "Base.St") r) as [v|]; [|discriminate].
    exists v. split; [reflexivity|]. congruence.
Qed.

Lemma absent_rows_are_dropped_witness :
  exists records,
    table_records two_slots = Some records
    /\ [[(txt "Power", Int 120);
         (txt "Base.St", Str (txt "Normal"));
         (txt "Coulomb", Int 91)]]
       = map coerce (filter reported records)
    /\ (forall it,
        In it [[(txt "Power", Int 120);
                (txt "Base.St", Str (txt "Normal"));
                (txt "Coulomb", Int 91)]] ->
        exists v, dict_get (txt "Base.St") it = Some v
                  /\ v <> Str (txt "Absent"))
    /\ (forall r, In r records ->
        dict_get (txt "Base.St") r = Some (Str (txt "Absent")) ->
        ~ In (coerce r) [[(txt "Power", Int 120);
                          (txt "Base.St", Str (txt "Normal"));
                          (txt "Coulomb", Int 91)]])
    /\ (forall r, In r records ->
        dict_get (txt "Base.St") r <> Some (Str (txt "Absent")) ->
        In (coerce r) [[(txt "Power", Int 120);
                        (txt "Base.St", Str (txt "Normal"));
                        (txt "Coulomb", Int 91)]]).
Proof.
  apply (absent_rows_are_dropped two_slots). reflexivity.
Defined.

(** ** The parser: empty lines *)

Lemma index_nil {A : Type} (i : Z) : Py.index (@nil A) i = None.
Proof.
  unfold Py.index. destruct (_ <? 0)%Z; [reflexivity|].
  now destruct (Z.to_nat _).
Qed.

(** An empty line has no cell: the slicer looks at the character before
    the right boundary, and there is none. *)
Lemma getcell_empty_line (colstart : list Z) (cellno : Z) :
  getcell colstart [] cellno = None.
Proof.
  unfold getcell. destruct (Py.index colstart cellno) as [start|]; [|reflexivity].
  destruct (_ =? 0)%Z.
  - destruct (if (cellno + 1 <? Py.len colstart)%Z then _ else _);
      [|reflexivity].
    now rewrite index_nil.
  - now rewrite index_nil.
Qed.

Lemma cells_empty_line (colstart : list Z) :
  colstart <> [] -> cells colstart [] = None.
Proof.
  intros H. unfold cells, Py.range, Py.len. rewrite Nat2Z.id.
  destruct colstart as [|c colstart]; [congruence|].
  simpl. now rewrite getcell_empty_line.
Qed.

Lemma colstart_of_nonempty (header : text) : colstart_of header <> [].
Proof.
  unfold colstart_of.
  assert (G : forall (ms : list text) (init : list Z), init <> [] ->
              fold_left (fun colstart m =>
                           colstart ++ [(last colstart 0 + Py.len m)%Z])
                ms init <> []).
  { induction ms as [|m ms IH]; intros init Hi; simpl; [exact Hi|].
    apply IH. now destruct init. }
  now apply G.
Qed.

Lemma lines_of_nonempty (s : text) : lines_of s <> [].
Proof.
  unfold lines_of. induction s as [|c s IH]; simpl; [discriminate|].
  destruct (c =? newline)%N; [discriminate|].
  now destruct (Py.split N.eqb newline s).
Qed.

(** A newline ends a line: the lines of what follows come after the lines
    of what precedes. *)
Lemma lines_of_app (a b : text) :
  lines_of (a ++ newline :: b) = lines_of a ++ lines_of b.
Proof.
  unfold lines_of. induction a as [|c a IH]; [reflexivity|].
  cbn [app Py.split]. rewrite IH.
  destruct (c =? newline)%N; [reflexivity|].
  pose proof (lines_of_nonempty a) as Hne. unfold lines_of in Hne.
  now destruct (Py.split N.eqb newline a).
Qed.

(** The two ways a response comes to have an empty line after its first:
    two newlines in a row, or a newline at its very end. *)
Lemma blank_line_is_empty_line (a b : text) :
  In [] (tl (lines_of (a ++ newline :: newline :: b))).
Proof.
  rewrite lines_of_app. pose proof (lines_of_nonempty a) as Hne.
  destruct (lines_of a) as [|l ls]; [congruence|].
  cbn [app tl]. apply in_or_app. right.
  change (lines_of (newline :: b)) with ([] :: lines_of b). now left.
Qed.

Lemma final_newline_is_empty_line (a : text) :
  In [] (tl (lines_of (a ++ [newline]))).
Proof.
  rewrite lines_of_app. pose proof (lines_of_nonempty a) as Hne.
  destruct (lines_of a) as [|l ls]; [congruence|].
  cbn [app tl]. apply in_or_app. right. now left.
Qed.

(** C10: a response with an empty line after the header line makes the
    parser raise the error that carries the response. *)
Theorem empty_line_fails_parse (response : text) :
  In [] (tl (lines_of response)) ->
  parsePowerTable response = Raise (TableParseError response).
Proof.
  intros Hin. unfold parsePowerTable. rewrite power_table_spec.
  unfold table_records.
  destruct (Py.index (lines_of response) 0) as [line0|]; [|reflexivity].
  destruct (cells (colstart_of line0) line0) as [headers|]; [|reflexivity].
  rewrite slice_tail.
  rewrite (traverse_fails _ _ [] Hin); [reflexivity|].
  unfold record_of. now rewrite cells_empty_line by apply colstart_of_nonempty.
Qed.

Lemma empty_line_fails_parse_witness :
  parsePowerTable (table [txt "Base.St"; []; txt "Normal"])
  = Raise (TableParseError (table [txt "Base.St"; []; txt "Normal"])).
Proof.
  apply (empty_line_fails_parse (table [txt "Base.St"; []; txt "Normal"])).
  vm_compute. left. reflexivity.
Defined.

(** ** The parser: the two-line table *)

Lemma two_lines (c d : char) :
  c <> newline -> d <> newline ->
  lines_of (table [power_header ++ [c]; power_row ++ [d]])
  = [power_header ++ [c]; power_row ++ [d]].
Proof.
  intros Hc Hd. apply N.eqb_neq in Hc, Hd.
  unfold lines_of. cbn. rewrite Hc. cbn. now rewrite Hd.
Qed.

Lemma colstart_of_power_header (c : char) :
  colstart_of (power_header ++ [c]) = [0; 8; 14]%Z.
Proof.
  unfold colstart_of, str_rstrip, Py.rstrip_by.
  cbn [power_header txt b_ list_byte_of_string map app rev].
  destruct (N.eqb_spec c space) as [->|Hs]; [reflexivity|].
  apply N.eqb_neq in Hs. cbn.
  destruct (isspace c); cbn; [reflexivity|]. now rewrite Hs.
Qed.

(** Whatever follows the last cell of a line, a space or not, is not part
    of the cell. *)
Lemma cells_of_power_header (c : char) :
  cells [0; 8; 14]%Z (power_header ++ [c])
  = Some [txt "Base.St"; txt "Power"; txt "Volt"].
Proof.
  destruct (N.eqb_spec c space) as [->|Hs]; [reflexivity|].
  apply N.eqb_neq in Hs. unfold space in Hs.
  cbv -[N.eqb]. now rewrite Hs.
Qed.

Lemma cells_of_power_row (d : char) :
  cells [0; 8; 14]%Z (power_row ++ [d])
  = Some [txt "Normal"; txt "120"; txt "480"].
Proof.
  destruct (N.eqb_spec d space) as [->|Hs]; [reflexivity|].
  apply N.eqb_neq in Hs. unfold space in Hs.
  cbv -[N.eqb]. now rewrite Hs.
Qed.

(** C2, as amended: from the bare header "Base.St Power Volt" and row
    "Normal  120   480" the parser builds one record whose last field is
    "Vol" with the text "48", because the right boundary of the last cell is
    the end of the line and the character before it is not a space. With one
    more character at the end of each line, any but a newline, it builds
    the record with "Base.St" "Normal", "Power" 120 and "Volt" 480. *)
Theorem last_cell_loses_its_last_character :
  parsePowerTable (table [power_header; power_row]) = Return [clipped_record]
  /\ forall c d,
      c <> newline -> d <> newline ->
      parsePowerTable (table [power_header ++ [c]; power_row ++ [d]])
      = Return [power_record].
Proof.
  split; [reflexivity|].
  intros c d Hc Hd. unfold parsePowerTable, power_table.
  rewrite (two_lines c d Hc Hd).
  change (Py.index [power_header ++ [c]; power_row ++ [d]] 0)
    with (Some (power_header ++ [c])).
  cbv beta iota zeta.
  rewrite colstart_of_power_header, cells_of_power_header, slice_tail.
  cbn [tl rows]. now rewrite cells_of_power_row.
Qed.

Lemma last_cell_loses_its_last_character_witness :
  parsePowerTable
    (table [power_header ++ [carriage_return]; power_row ++ [space]])
  = Return [power_record].
Proof.
  apply (proj2 last_cell_loses_its_last_character carriage_return space);
    discriminate.
Defined.

(** C2 as stated fails: the two bare lines do not give the record with
    "Volt" 480. *)
Lemma bare_lines_give_clipped_record :
  parsePowerTable (table [power_header; power_row]) <> Return [power_record].
Proof.
  change (parsePowerTable (table [power_header; power_row]))
    with (Return [clipped_record]).
  discriminate.
Qed.

(** The engine and the parser together: [get_power] over the network, the
    device answering in one read. *)
Lemma get_power_example :
  get_power true
    (fresh [talking [Data (framed_response (b_ "pwr")
                             (b_ "Power Base.St Coulomb" ++ [CR; LF]
                              ++ b_ "120   Normal  91%" ++ [CR; LF]
                              ++ b_ "-     Absent  -" ++ [CR]))]])
  = (Return [[(txt "Power", Int 120);
              (txt "Base.St", Str (txt "Normal"));
              (txt "Coulomb", Int 91)]],
     {| device := []; calls := [logged pwr 1 true] |}).
Proof. vm_compute. reflexivity. Qed.


(** ** The engine: what a call can raise and what it costs *)

Lemma try_command_unencodable t command retries checkframe w :
  encode command = None ->
  try_command t command retries checkframe w
  = (Uncaught EncodeError, enter (logged command retries checkframe) w).
Proof. intros He. unfold try_command, logged. now rewrite He. Qed.

Lemma command_unencodable t command retries checkframe w :
  encode command = None ->
  transport_command t command retries checkframe w
  = (Raise EncodeError, enter (logged command retries checkframe) w).
Proof.
  intros He. destruct retries.
  - now rewrite transport_command_equation_1, try_command_unencodable.
  - now rewrite transport_command_equation_2, try_command_unencodable.
Qed.

Lemma after_call_calls c w : calls (after_call c w) = calls w ++ [c].
Proof. unfold after_call, connect, enter. cbn. now destruct (device w). Qed.

Lemma after_call_device c w : device (after_call c w) = skipn 1 (device w).
Proof. unfold after_call, connect, enter. cbn. now destruct (device w). Qed.

(** X1: when a call of [network_command] or [serial_command] raises,
    whatever the device does and for any number of retries, it raises the
    [RuntimeError] "Error sending command <command>" for the command it
    was called with: every other exception of an attempt (connect, write,
    read timeout, corrupt frame, decoding) has been caught. The one
    exception that is raised as it is comes from [command.encode()], which
    runs before the [try], for a command that cannot be encoded. Nothing
    is said of a call that does not end. *)
Theorem call_raises_only_command_failed
    (t : transport) (command : text) (retries : nat) (checkframe : bool)
    (w : world) (e : exn) :
  fst (transport_command t command retries checkframe w) = Raise e ->
  (e = CommandFailed command /\ encode command <> None)
  \/ (e = EncodeError /\ encode command = None).
Proof.
  destruct (encode command) as [cb|] eqn:He.
  2:{ rewrite command_unencodable by exact He. cbn [fst].
      intros [= <-]. now right. }
  revert checkframe w. induction retries as [|n IH]; intros checkframe w;
    destruct (attempt t command cb checkframe (served w)) as [r|e0] eqn:Ha.
  - now rewrite (command_returns _ _ _ _ _ _ _ He Ha).
  - rewrite (command_gives_up _ _ _ _ _ _ He Ha). cbn [fst].
    intros [= <-]. left. split; [reflexivity|discriminate].
  - now rewrite (command_returns _ _ _ _ _ _ _ He Ha).
  - rewrite (command_retries _ _ _ _ _ _ _ He Ha). apply IH.
Qed.

Lemma call_raises_only_command_failed_witness :
  fst (serial_command pwr 1 true
         (fresh [talking (garbled MARK_END); unreachable;
                 talking silent_script]))
  = Raise (CommandFailed pwr)
  /\ ((CommandFailed pwr = CommandFailed pwr /\ encode pwr <> None)
      \/ (CommandFailed pwr = EncodeError /\ encode pwr = None)).
Proof.
  split; [reflexivity|].
  apply (call_raises_only_command_failed Serial pwr 1 true
           (fresh [talking (garbled MARK_END); unreachable;
                   talking silent_script])).
  reflexivity.
Defined.

(** X2: a call with [retries] retries logs itself and then at most
    [2 * retries] further calls (a probe and a retry for each failed
    attempt), in that order after what was logged before, and the device
    has served exactly one connection per logged call. A command that
    cannot be encoded opens no connection. *)
Theorem call_takes_one_connection_per_logged_call
    (t : transport) (command : text) (retries : nat) (checkframe : bool)
    (w : world) :
  exists more,
    calls (snd (transport_command t command retries checkframe w))
    = calls w ++ logged command retries checkframe :: more
    /\ length more <= 2 * retries
    /\ device (snd (transport_command t command retries checkframe w))
       = match encode command with
         | Some _ => skipn (S (length more)) (device w)
         | None => device w
         end.
Proof.
  destruct (encode command) as [cb|] eqn:He.
  2:{ exists []. rewrite command_unencodable by exact He. cbn. repeat split; auto. lia. }
  revert checkframe w. induction retries as [|n IH]; intros checkframe w.
  - exists []. 
    destruct (attempt t command cb checkframe (served w)) as [r|e] eqn:Ha.
    + rewrite (command_returns _ _ _ _ _ _ _ He Ha). cbn [snd].
      rewrite after_call_calls, after_call_device. repeat split; auto.
    + rewrite (command_gives_up _ _ _ _ _ _ He Ha). cbn [snd].
      rewrite after_call_calls, after_call_device. repeat split; auto.
  - destruct (attempt t command cb checkframe (served w)) as [r|e] eqn:Ha.
    + exists []. rewrite (command_returns _ _ _ _ _ _ _ He Ha). cbn [snd].
      rewrite after_call_calls, after_call_device. repeat split; auto. cbn; lia.
    + rewrite (command_retries _ _ _ _ _ _ _ He Ha), probe_world.
      destruct (IH true (after_call (logged [] 0 false)
                           (after_call (logged command (S n) checkframe) w)))
        as (more & Hc & Hl & Hd).
      exists (logged [] 0 false :: logged command n true :: more).
      rewrite Hc, Hd, !after_call_calls, !after_call_device.
      repeat split.
      * now rewrite <- !app_assoc.
      * cbn [length]. lia.
      * rewrite !skipn_skipn. f_equal. cbn [length]. lia.
Qed.

Lemma attempt_not_ready t command command_bytes checkframe s :
  ready t s = false ->
  exists e, attempt t command command_bytes checkframe s = Raise e.
Proof.
  unfold ready, attempt. destruct (opens s); [|now eexists].
  destruct t, (writable s), (accepts s); cbn; try discriminate; now eexists.
Qed.

Lemma served_not_ready t w :
  Forall (fun s => ready t s = false) (device w) -> ready t (served w) = false.
Proof.
  unfold served, connect. destruct (device w) as [|s rest]; [reflexivity|].
  intros H. now inversion H.
Qed.

Lemma after_call_world c w :
  after_call c w
  = {| device := skipn 1 (device w); calls := calls w ++ [c] |}.
Proof. destruct w as [d l]. unfold after_call, connect, enter. cbn. now destruct d. Qed.

(** X3: when no connection of the device can be used (it does not open, is
    not writable on the serial transport, or does not take the command),
    a call makes all its attempts and all its probes before it fails with
    "Error sending command": [2 * retries + 1] connections, and the log is
    the call followed, for each retry, by the probe and the framed
    retry. *)
Theorem unreachable_device_costs_every_retry
    (t : transport) (command : text) (command_bytes : bytes) (retries : nat)
    (checkframe : bool) (w : world) :
  encode command = Some command_bytes ->
  Forall (fun s => ready t s = false) (device w) ->
  transport_command t command retries checkframe w
  = (Raise (CommandFailed command),
     {| device := skipn (2 * retries + 1) (device w);
        calls := calls w ++ logged command retries checkframe
                         :: retry_log command retries |}).
Proof.
  intros He. revert checkframe w.
  assert (Hkeep : forall c w, Forall (fun s => ready t s = false) (device w) ->
             Forall (fun s => ready t s = false) (device (after_call c w))).
  { intros c w Hall. rewrite after_call_device.
    destruct (device w); [constructor|]. now inversion Hall. }
  induction retries as [|n IH]; intros checkframe w Hall;
    destruct (attempt_not_ready t command command_bytes checkframe _
                (served_not_ready t w Hall)) as [e Ha].
  - rewrite (command_gives_up _ _ _ _ _ _ He Ha). now rewrite after_call_world.
  - rewrite (command_retries _ _ _ _ _ _ _ He Ha), probe_world.
    rewrite IH by (apply Hkeep, Hkeep, Hall).
    f_equal. rewrite !after_call_calls, !after_call_device, !skipn_skipn.
    f_equal.
    + f_equal. lia.
    + rewrite <- !app_assoc. reflexivity.
Qed.

Lemma unreachable_device_costs_every_retry_witness :
  serial_command pwr 2 false
    (fresh [unreachable;
            {| opens := true; writable := false; accepts := true;
               reads := [Data hello_response] |}])
  = (Raise (CommandFailed pwr),
     {| device := [];
        calls := [logged pwr 2 false; logged [] 0 false; logged pwr 1 true;
                  logged [] 0 false; logged pwr 0 true] |}).
Proof.
  apply (unreachable_device_costs_every_retry Serial pwr (b_ "pwr") 2 false
           (fresh [unreachable;
                   {| opens := true; writable := false; accepts := true;
                      reads := [Data hello_response] |}])).
  - reflexivity.
  - repeat constructor.
Defined.

(** X4: when the first attempt of a call fails, the framed retries that
    follow fail as well, [k] attempts in all with [1 <= k <= retries], and
    the connection of the next attempt answers a framed call with [reply],
    the call returns [reply]. An attempt fails when it raises anything:
    the connection does not open or does not take the command, the read
    times out, the frame is corrupt, the response does not decode. The call
    has used two connections per failed attempt (the attempt and its
    probe, whatever the probe meets) and one for the attempt that worked;
    the attempt that worked was framed, whatever [checkframe] the call was
    given. *)
Theorem call_recovers_after_failed_connections
    (t : transport) (command : text) (command_bytes : bytes)
    (retries : nat) (checkframe : bool) (first : session * session)
    (more : list (session * session))
    (good : session) (rest : list session) (log : list call) (reply : text) :
  encode command = Some command_bytes ->
  fails t command command_bytes checkframe (fst first) ->
  Forall (fun r => fails t command command_bytes true (fst r)) more ->
  S (length more) <= retries ->
  attempt t command command_bytes true good = Return reply ->
  transport_command t command retries checkframe
    {| device := failed_rounds (first :: more) ++ good :: rest; calls := log |}
  = (Return reply,
     {| device := rest;
        calls := log ++ logged command retries checkframe
                     :: firstn (2 * S (length more))
                          (retry_log command retries) |}).
Proof.
  intros He Hfirst Hmore Hk Hgood.
  assert (G : forall rounds retries cf log,
             match rounds with
             | [] => attempt t command command_bytes cf good = Return reply
             | r :: more =>
                 fails t command command_bytes cf (fst r)
                 /\ Forall (fun r => fails t command command_bytes true (fst r))
                      more
             end ->
             length rounds <= retries ->
             transport_command t command retries cf
               {| device := failed_rounds rounds ++ good :: rest; calls := log |}
             = (Return reply,
                {| device := rest;
                   calls := log ++ logged command retries cf
                                :: firstn (2 * length rounds)
                                     (retry_log command retries) |})).
  { clear retries checkframe first more log Hfirst Hmore Hk.
    induction rounds as [|[s1 s2] rounds IH]; intros retries cf log H Hk.
    - cbn [failed_rounds flat_map app].
      rewrite (command_returns t command retries cf _ command_bytes reply He)
        by exact H.
      now rewrite after_call_world.
    - destruct retries as [|n]; [cbn in Hk; lia|].
      destruct H as [[e Ha] Hrounds]. cbn [fst] in Ha.
      change (failed_rounds ((s1, s2) :: rounds))
        with (s1 :: s2 :: failed_rounds rounds).
      cbn [app].
      rewrite (command_retries t command n cf
                 {| device := s1 :: s2 :: failed_rounds rounds ++ good :: rest;
                    calls := log |} command_bytes e He Ha),
        probe_world, !after_call_world.
      cbn [device calls skipn].
      rewrite (IH n true); try (cbn in Hk; lia).
      + f_equal. f_equal. rewrite <- !app_assoc. cbn [app retry_log length].
        replace (2 * S (length rounds)) with (S (S (2 * length rounds))) by lia.
        reflexivity.
      + destruct rounds as [|r rounds']; [exact Hgood|].
        now inversion Hrounds. }
  apply (G (first :: more)); [now split|exact Hk].
Qed.

Lemma call_recovers_after_failed_connections_witness :
  network_command pwr 3 true
    (fresh [talking (garbled MARK_END); talking [Data (b_ "pylon>")];
            talking [Data (b_ "ok" ++ MARK_PROMPT)]; unreachable;
            talking [Data hello_response]; talking silent_script])
  = (Return (txt "hello"),
     {| device := [talking silent_script];
        calls := [logged pwr 3 true; logged [] 0 false; logged pwr 2 true;
                  logged [] 0 false; logged pwr 1 true] |}).
Proof.
  apply (call_recovers_after_failed_connections Network pwr (b_ "pwr") 3
           true (talking (garbled MARK_END), talking [Data (b_ "pylon>")])
           [(talking [Data (b_ "ok" ++ MARK_PROMPT)], unreachable)]
           (talking [Data hello_response]) [talking silent_script] []
           (txt "hello")).
  - reflexivity.
  - exists FrameCorrupt. reflexivity.
  - repeat constructor. exists ReadTimeout. reflexivity.
  - cbn. lia.
  - reflexivity.
Defined.

(** ** The engine: unframed calls, trailing whitespace, the frame offset *)

(** X5: an unframed call ([checkframe=False]) returns everything the device
    sent up to and including the prompt, decoded: nothing is checked and
    nothing is cut off, the echo of the command included. This is for a
    connection that hands over [transcript + PROMPT] with at most five idle
    reads, no read finding the prompt while bytes are still to come. *)
Theorem unframed_call_returns_transcript
    (t : transport) (command : text) (command_bytes transcript : bytes)
    (reply : text) (s : session) (rest : list session) (log : list call)
    (retries : nat) :
  encode command = Some command_bytes ->
  decode (transcript ++ MARK_PROMPT) = Some reply ->
  ready t s = true ->
  delivers t (reads s) (transcript ++ MARK_PROMPT) ->
  ends_early MARK_PROMPT [] (reads s) = false ->
  transport_command t command retries false
    {| device := s :: rest; calls := log |}
  = (Return reply,
     {| device := rest; calls := log ++ [logged command retries false] |}).
Proof.
  intros Henc Hdec Hready (Hub & Hrec & Hidle) Hearly.
  rewrite (command_returns t command retries false
             {| device := s :: rest; calls := log |} command_bytes reply Henc);
    [reflexivity|].
  cbn [served connect device fst].
  rewrite attempt_ready by exact Hready.
  destruct (read_loop_found t MARK_PROMPT (transcript ++ MARK_PROMPT)
              (contains_app Byte.eqb byte_eqb_refl _ _)
              (reads s) [] 0 Hub Hrec Hidle Hearly) as [n Hn].
  unfold empty_buffer. cbn [mark_end_of]. rewrite Hn. cbn [response].
  change MARK_PROMPT with (mark_end_of false). rewrite rstrip_marked.
  cbn [mark_end_of]. unfold decode_response. now rewrite Hdec.
Qed.

Lemma unframed_call_returns_transcript_witness :
  serial_command [] 0 false
    (fresh [talking [Data (b_ "ok"); Timeout; Data MARK_PROMPT]])
  = (Return (txt "ok" ++ plain MARK_PROMPT),
     {| device := []; calls := [logged [] 0 false] |}).
Proof.
  apply (unframed_call_returns_transcript Serial [] [] (b_ "ok")
           (txt "ok" ++ plain MARK_PROMPT)
           (talking [Data (b_ "ok"); Timeout; Data MARK_PROMPT]) [] [] 0);
    try reflexivity.
  repeat split; try reflexivity. vm_compute. lia.
Defined.

Lemma dropwhile_all {A} (p : A -> bool) (ws l : list A) :
  forallb p ws = true -> Py.dropwhile p (ws ++ l) = Py.dropwhile p l.
Proof.
  induction ws as [|x ws IH]; simpl; [reflexivity|].
  intros H. apply andb_true_iff in H as [Hx Hws]. now rewrite Hx, IH.
Qed.

Lemma rstrip_by_trailing {A} (p : A -> bool) (a ws : list A) :
  forallb p ws = true -> Py.rstrip_by p (a ++ ws) = Py.rstrip_by p a.
Proof.
  intros H. unfold Py.rstrip_by. rewrite rev_app_distr, dropwhile_all; [reflexivity|].
  rewrite forallb_forall in *. intros x Hx. apply H. now apply in_rev.
Qed.

Lemma slice_from_middle {A} (p m e : list A) (k : nat) :
  e <> [] -> k <= length p ->
  Py.slice (p ++ m ++ e) (Some (Z.of_nat k)) (Some (- Py.len e)%Z)
  = skipn k p ++ m.
Proof.
  intros He Hk. unfold Py.slice, Py.clamp, Py.len.
  assert (0 < length e)%nat by (destruct e; [congruence | simpl; lia]).
  rewrite !length_app.
  replace (Z.of_nat k <? 0)%Z with false by (symmetry; apply Z.ltb_ge; lia).
  replace (- Z.of_nat (length e) <? 0)%Z with true by (symmetry; apply Z.ltb_lt; lia).
  replace (Z.to_nat (Z.min (Z.max (Z.of_nat k) 0)
             (Z.of_nat (length p + (length m + length e)))))
    with k by lia.
  replace (Z.to_nat (Z.min (Z.max (- Z.of_nat (length e)
             + Z.of_nat (length p + (length m + length e))) 0)
             (Z.of_nat (length p + (length m + length e)))))
    with (length p + length m)%nat by lia.
  rewrite skipn_app. replace (k - length p) with 0 by lia. cbn [skipn].
  rewrite firstn_app, length_skipn.
  replace (length p + length m - k - (length p - k)) with (length m + 0) by lia.
  rewrite firstn_app_2. cbn [firstn]. rewrite app_nil_r.
  rewrite firstn_all2 by (rewrite length_skipn; lia). reflexivity.
Qed.

Lemma encode_length (s : text) (b : bytes) :
  encode s = Some b -> length s <= length b.
Proof.
  revert b. induction s as [|c s IH]; intros b; simpl.
  - intros [= <-]. auto.
  - destruct (encode_char c) as [cs|] eqn:Ec; [|discriminate].
    destruct (encode s) as [r|]; [|discriminate].
    intros [= <-]. rewrite length_app. specialize (IH r eq_refl).
    assert (1 <= length cs).
    { unfold encode_char in Ec.
      repeat (destruct (_ <? _)%N in Ec; [injection Ec as <-; simpl; lia|]);
      try destruct (surrogate c); try discriminate;
      repeat (destruct (_ <? _)%N in Ec); try injection Ec as <-; try discriminate; simpl; lia. }
    lia.
Qed.

Lemma framed_response_trimmed (command_bytes payload : bytes) :
  bytes_rstrip (framed_response command_bytes payload)
  = framed_response command_bytes payload
  /\ frame_ok command_bytes MARK_END (framed_response command_bytes payload) = true.
Proof.
  unfold framed_response. split.
  - replace (command_bytes ++ MARK_BEGIN ++ payload ++ MARK_END)
      with ((command_bytes ++ MARK_BEGIN ++ payload) ++ mark_end_of true)
      by (now rewrite <- !app_assoc).
    apply rstrip_marked.
  - unfold frame_ok. rewrite app_assoc.
    rewrite startswith_app by apply byte_eqb_refl.
    rewrite <- app_assoc, 2!app_assoc.
    now rewrite endswith_app by apply byte_eqb_refl.
Qed.

Lemma read_loop_stops_after (t : transport) (mark R ws : bytes)
    (script : list read_event) :
  Py.contains Byte.eqb mark R = true ->
  Py.contains Byte.eqb mark (removelast R) = false ->
  unbroken script = true ->
  received script = R ++ ws ->
  idle_reads t script <= 5 ->
  exists b ws1 ws2,
    read_loop t mark script empty_buffer = Found b
    /\ response b = R ++ ws1 /\ ws = ws1 ++ ws2.
Proof.
  intros HR Hclean Hub Hrec Hidle.
  destruct (read_loop_terminates t mark script [] [] 0 Hub) as (b & Hb & _).
  - cbn [app]. rewrite Hrec. now apply contains_extend.
  - exact Hidle.
  - rewrite app_nil_r in Hb.
    destruct (read_loop_found_prefix t mark _ _ _ Hb) as (Hm & tail & Ht).
    cbn [response app] in Ht. rewrite Hrec in Ht.
    apply app_eq_app in Ht as [l [[H1 H2]|[H1 H2]]].
    + destruct l as [|x l].
      * exists b, [], ws. rewrite app_nil_r in *. auto.
      * rewrite H1 in Hclean.
        rewrite (proper_prefix_clean mark (response b) (x :: l)) in Hm;
          [discriminate|easy|exact Hclean].
    + exists b, l, tail. auto.
Qed.

(** X6: ASCII whitespace that the device sends after the end marker does not
    change the result of a framed call: [response.rstrip()] removes what
    of it was read, and the rest is never read. The end marker must not
    occur in the response before its end. *)
Theorem whitespace_after_prompt_is_dropped
    (t : transport) (command : text) (command_bytes payload ws : bytes)
    (reply : text) (s : session) (rest : list session) (log : list call)
    (retries : nat) :
  ascii_text command = true ->
  encode command = Some command_bytes ->
  decode payload = Some reply ->
  ready t s = true ->
  delivers t (reads s) (framed_response command_bytes payload ++ ws) ->
  forallb ascii_space ws = true ->
  Py.contains Byte.eqb MARK_END
    (removelast (framed_response command_bytes payload)) = false ->
  transport_command t command retries true
    {| device := s :: rest; calls := log |}
  = (Return reply,
     {| device := rest; calls := log ++ [logged command retries true] |}).
Proof.
  intros Hascii Henc Hdec Hready (Hub & Hrec & Hidle) Hws Hclean.
  rewrite (command_returns t command retries true
             {| device := s :: rest; calls := log |} command_bytes reply Henc);
    [reflexivity|].
  cbn [served connect device fst].
  rewrite attempt_ready by exact Hready. cbn [mark_end_of].
  destruct (read_loop_stops_after t MARK_END _ ws (reads s)
              (framed_response_marked _ _) Hclean Hub Hrec Hidle)
    as (b & ws1 & ws2 & Hb & Hresp & Hsplit).
  rewrite Hb, Hresp. cbv zeta.
  assert (Hws1 : forallb ascii_space ws1 = true).
  { rewrite Hsplit, forallb_app in Hws. now apply andb_true_iff in Hws. }
  unfold bytes_rstrip. rewrite (rstrip_by_trailing _ _ _ Hws1).
  fold (bytes_rstrip (framed_response command_bytes payload)).
  destruct (unwrap_framed_response command command_bytes payload
              (encode_ascii_length _ _ Hascii Henc)) as [Hok Hslice].
  cbv zeta in Hok, Hslice. rewrite Hok, Hslice. cbn [negb].
  unfold decode_response. now rewrite Hdec.
Qed.

Lemma whitespace_after_prompt_is_dropped_witness :
  network_command pwr 1 true
    (fresh [talking [Data (b_ "pwr" ++ MARK_BEGIN ++ b_ "hel"); Data [];
                     Data (b_ "lo" ++ MARK_END ++ [CR; LF])]])
  = (Return (txt "hello"),
     {| device := []; calls := [logged pwr 1 true] |}).
Proof.
  apply (whitespace_after_prompt_is_dropped Network pwr (b_ "pwr")
           (b_ "hello") [CR; LF] (txt "hello")
           (talking [Data (b_ "pwr" ++ MARK_BEGIN ++ b_ "hel"); Data [];
                     Data (b_ "lo" ++ MARK_END ++ [CR; LF])]) [] [] 1);
    try reflexivity.
  repeat split; try reflexivity. vm_compute. lia.
Defined.

(** X7: the frame is cut off with [len(command)], the number of characters
    of the command, not the number of bytes of its encoding. For every
    command that can be encoded the framed call returns the decoding of
    what remains of [command_bytes + BEGIN] after [len(command) +
    len(BEGIN)] bytes, followed by the payload. What remains is as many
    bytes as the encoding has more than the command has characters: none
    for an ASCII command, which gets the payload. *)
Theorem framed_call_skips_by_characters
    (t : transport) (command : text) (command_bytes payload : bytes)
    (reply : text) (s : session) (rest : list session) (log : list call)
    (retries : nat) :
  encode command = Some command_bytes ->
  ready t s = true ->
  delivers t (reads s) (framed_response command_bytes payload) ->
  ends_early MARK_END [] (reads s) = false ->
  decode (skipn (length command + length MARK_BEGIN)
            (command_bytes ++ MARK_BEGIN) ++ payload) = Some reply ->
  transport_command t command retries true
    {| device := s :: rest; calls := log |}
  = (Return reply,
     {| device := rest; calls := log ++ [logged command retries true] |})
  /\ length (skipn (length command + length MARK_BEGIN)
               (command_bytes ++ MARK_BEGIN))
     = length command_bytes - length command.
Proof.
  intros Henc Hready (Hub & Hrec & Hidle) Hearly Hdec.
  pose proof (encode_length _ _ Henc) as Hlen.
  split; [|rewrite length_skipn, length_app; lia].
  rewrite (command_returns t command retries true
             {| device := s :: rest; calls := log |} command_bytes reply Henc);
    [reflexivity|].
  cbn [served connect device fst].
  rewrite attempt_ready by exact Hready.
  destruct (read_loop_found t MARK_END _ (framed_response_marked _ _)
              (reads s) [] 0 Hub Hrec Hidle Hearly) as [n Hn].
  unfold empty_buffer. cbn [mark_end_of]. rewrite Hn. cbn [response]. cbv zeta.
  destruct (framed_response_trimmed command_bytes payload) as [Htrim Hok].
  rewrite Htrim, Hok. cbn [negb].
  replace (Py.len command + Py.len MARK_BEGIN)%Z
    with (Z.of_nat (length command + length MARK_BEGIN))
    by (unfold Py.len; lia).
  unfold framed_response. rewrite app_assoc.
  rewrite slice_from_middle.
  - unfold decode_response. now rewrite Hdec.
  - discriminate.
  - rewrite length_app. lia.
Qed.

Lemma framed_call_skips_by_characters_witness :
  network_command [233%N] 0 true
    (fresh [talking [Data (framed_response [xc3; xa9] (b_ "hello"))]])
  = (Return (newline :: txt "hello"),
     {| device := []; calls := [logged [233%N] 0 true] |})
  /\ length (skipn (length [233%N] + length MARK_BEGIN)
               ([xc3; xa9] ++ MARK_BEGIN))
     = length [xc3; xa9] - length [233%N].
Proof.
  apply (framed_call_skips_by_characters Network [233%N] [xc3; xa9]
           (b_ "hello") (newline :: txt "hello")
           (talking [Data (framed_response [xc3; xa9] (b_ "hello"))]) [] [] 0);
    try reflexivity.
  repeat split; try reflexivity. vm_compute. lia.
Defined.

(** ** The engine: the two transports *)

Lemma read_loop_agrees (mark : bytes) (script : list read_event) :
  forallb (fun e => match e with Data [] => false | _ => true end) script = true ->
  forall b, read_loop Network mark script b = read_loop Serial mark script b.
Proof.
  induction script as [|e script IH]; intros H b.
  - reflexivity.
  - cbn [forallb] in H. apply andb_true_iff in H as [He Hs].
    cbn [read_loop].
    destruct (Py.contains Byte.eqb mark (response b)); [reflexivity|].
    destruct (5 <? timeout_counter b)%nat; [reflexivity|].
    destruct e as [|d|]; [now apply IH| |reflexivity].
    destruct d as [|x d]; [discriminate|]. now apply IH.
Qed.

Lemma attempt_agrees (command : text) (command_bytes : bytes)
    (checkframe : bool) (s : session) :
  plain_session s = true ->
  attempt Network command command_bytes checkframe s
  = attempt Serial command command_bytes checkframe s.
Proof.
  unfold plain_session, attempt. destruct (opens s); [|reflexivity].
  cbn [negb orb]. intros H. apply andb_true_iff in H as [Hw Hr].
  rewrite Hw. cbn [negb]. now rewrite (read_loop_agrees _ _ Hr).
Qed.

Lemma attempt_served_agrees (command : text) (command_bytes : bytes)
    (checkframe : bool) (w : world) :
  Forall (fun s => plain_session s = true) (device w) ->
  attempt Network command command_bytes checkframe (served w)
  = attempt Serial command command_bytes checkframe (served w).
Proof.
  intros H. apply attempt_agrees. unfold served, connect.
  destruct (device w) as [|s rest]; [reflexivity|]. now inversion H.
Qed.

(** X18: [network_command] and [serial_command] differ only in what they do
    with a connection that is not writable and with a read that returns
    zero bytes. On a device where neither occurs they return the same
    result, make the same calls and use the same connections, for every
    command, retry count and [checkframe]. *)
Theorem transports_agree
    (command : text) (retries : nat) (checkframe : bool) (w : world) :
  Forall (fun s => plain_session s = true) (device w) ->
  network_command command retries checkframe w
  = serial_command command retries checkframe w.
Proof.
  unfold network_command, serial_command.
  destruct (encode command) as [cb|] eqn:He.
  2:{ intros _. now rewrite !command_unencodable. }
  assert (Hkeep : forall c w, Forall (fun s => plain_session s = true) (device w) ->
             Forall (fun s => plain_session s = true) (device (after_call c w))).
  { intros c w0 Hall. rewrite after_call_device.
    destruct (device w0); [constructor|]. now inversion Hall. }
  revert checkframe w. induction retries as [|n IH]; intros checkframe w Hall;
    pose proof (attempt_served_agrees command cb checkframe w Hall) as Hsame;
    destruct (attempt Serial command cb checkframe (served w)) as [r|e] eqn:Ha.
  - now rewrite (command_returns _ _ _ _ _ _ _ He Ha),
      (command_returns _ _ _ _ _ _ _ He Hsame).
  - now rewrite (command_gives_up _ _ _ _ _ _ He Ha),
      (command_gives_up _ _ _ _ _ _ He Hsame).
  - now rewrite (command_returns _ _ _ _ _ _ _ He Ha),
      (command_returns _ _ _ _ _ _ _ He Hsame).
  - rewrite (command_retries _ _ _ _ _ _ _ He Ha),
      (command_retries _ _ _ _ _ _ _ He Hsame), !probe_world.
    apply IH. now apply Hkeep, Hkeep.
Qed.

Lemma transports_agree_witness :
  network_command pwr 1 true
    (fresh [talking [Timeout; Data (b_ "garbage")]; unreachable;
            talking [Data hello_response]])
  = serial_command pwr 1 true
      (fresh [talking [Timeout; Data (b_ "garbage")]; unreachable;
              talking [Data hello_response]]).
Proof.
  apply (transports_agree pwr 1 true
           (fresh [talking [Timeout; Data (b_ "garbage")]; unreachable;
                   talking [Data hello_response]])).
  repeat constructor.
Defined.

(** ** The parser: coercion *)

Lemma coerce_int_same (k : text) (it : item) (v : value) :
  dict_get k it = Some v ->
  dict_get k (coerce_int it k) = Some (coerced v).
Proof.
  intros H. unfold coerce_int, coerced. rewrite H.
  destruct (int_of v); [apply dict_get_set_same | exact H].
Qed.

Lemma coerce_ints_same (k : text) (keys : list text) (it : item) (v : value) :
  NoDup keys -> In k keys ->
  dict_get k it = Some v ->
  dict_get k (fold_left coerce_int keys it) = Some (coerced v).
Proof.
  intros Hnd. revert it. induction Hnd as [|k' keys Hnotin Hnd IH];
    intros it Hin Hv; [contradiction|].
  simpl. destruct Hin as [->|Hin].
  - rewrite coerce_ints_other.
    + now apply coerce_int_same.
    + apply Forall_forall. intros x Hx ->. contradiction.
  - apply IH; [exact Hin|]. rewrite coerce_int_other; [exact Hv|].
    intros ->. contradiction.
Qed.

Lemma numeric_distinct : NoDup NUMERIC.
Proof.
  unfold NUMERIC. repeat constructor; simpl; intuition discriminate.
Qed.

Lemma coulomb_not_numeric : ~ In (txt "Coulomb") NUMERIC.
Proof. unfold NUMERIC. simpl. intuition discriminate. Qed.

(** X8: every field of a record named in the list of numeric columns is
    replaced by [int] of its value when that succeeds, and kept as it is
    when [int] raises; the order of the loop and the Coulomb step do not
    interfere. *)
Theorem numeric_field_is_coerced (it : item) (k : text) (v : value) :
  In k NUMERIC ->
  dict_get k it = Some v ->
  dict_get k (coerce it)
  = Some match int_of v with Some z => Int z | None => v end.
Proof.
  intros Hk Hv. unfold coerce.
  rewrite coerce_coulomb_other.
  - now apply coerce_ints_same; [apply numeric_distinct| |].
  - intros ->. now apply coulomb_not_numeric.
Qed.

Lemma numeric_field_is_coerced_witness :
  dict_get (txt "Volt")
    (coerce [(txt "Volt", Str (txt " 49_872 ")); (txt "Base.St", Str (txt "Normal"))])
  = Some (Int 49872).
Proof.
  apply (numeric_field_is_coerced
           [(txt "Volt", Str (txt " 49_872 ")); (txt "Base.St", Str (txt "Normal"))]
           (txt "Volt") (Str (txt " 49_872 "))).
  - unfold NUMERIC. cbn. tauto.
  - reflexivity.
Defined.

Lemma dict_set_keys (k : text) (v : value) (d : item) :
  dict_get k d <> None -> map fst (dict_set k v d) = map fst d.
Proof.
  induction d as [|[k' v'] d IH]; simpl; [congruence|].
  destruct (text_eqb k k'); simpl; [reflexivity|].
  intros H. now rewrite IH.
Qed.

Lemma coerce_int_keys (it : item) (k : text) :
  map fst (coerce_int it k) = map fst it.
Proof.
  unfold coerce_int. destruct (dict_get k it) eqn:E; [|reflexivity].
  destruct (int_of v); [|reflexivity].
  apply dict_set_keys. congruence.
Qed.

Lemma coerce_keys (it : item) : map fst (coerce it) = map fst it.
Proof.
  unfold coerce.
  assert (H : forall keys it0, map fst (fold_left coerce_int keys it0) = map fst it0).
  { induction keys as [|k keys IH]; intros it0; simpl; [reflexivity|].
    now rewrite IH, coerce_int_keys. }
  unfold coerce_coulomb.
  destruct (dict_get (txt "Coulomb") _) as [[s|z]|] eqn:E; try apply H.
  destruct (py_int _); [|apply H].
  rewrite dict_set_keys by congruence. apply H.
Qed.

(** X9: coercion keeps the fields of a record and their order (it adds no
    field for a missing numeric column), and leaves every field other than
    the numeric columns and "Coulomb" as it was. *)
Theorem coercion_touches_only_listed_fields (it : item) :
  map fst (coerce it) = map fst it
  /\ forall k,
      ~ In k NUMERIC -> k <> txt "Coulomb" ->
      dict_get k (coerce it) = dict_get k it.
Proof.
  split; [apply coerce_keys|].
  intros k Hk Hc. unfold coerce. rewrite coerce_coulomb_other by exact Hc.
  apply coerce_ints_other. apply Forall_forall. intros x Hx ->. contradiction.
Qed.

(** ** The parser: fields of a record *)

Lemma dict_get_keys (k : text) (d : item) :
  existsb (text_eqb k) (map fst d) = match dict_get k d with Some _ => true | None => false end.
Proof.
  induction d as [|[k' v] d IH]; simpl; [reflexivity|].
  destruct (text_eqb k k'); [reflexivity|exact IH].
Qed.

Lemma dict_set_new (k : text) (v : value) (d : item) :
  dict_get k d = None -> dict_set k v d = d ++ [(k, v)].
Proof.
  induction d as [|[k' v'] d IH]; simpl; [reflexivity|].
  destruct (text_eqb k k'); [discriminate|]. intros H. now rewrite IH.
Qed.

Lemma dict_set_fields (k : text) (v : value) (d : item) :
  map fst (dict_set k v d)
  = if existsb (text_eqb k) (map fst d) then map fst d else map fst d ++ [k].
Proof.
  rewrite dict_get_keys. destruct (dict_get k d) eqn:E.
  - apply dict_set_keys. congruence.
  - rewrite dict_set_new by exact E. now rewrite map_app.
Qed.

Lemma zip_fields (hs vs : list text) :
  forall d, length hs = length vs ->
    map fst (fold_left put (combine hs vs) d)
    = fold_left (fun seen h => if existsb (text_eqb h) seen then seen else seen ++ [h])
        hs (map fst d).
Proof.
  revert vs. induction hs as [|h hs IH]; intros [|v vs] d Hl; try discriminate;
    [reflexivity|].
  cbn [combine fold_left]. rewrite IH by (simpl in Hl; lia).
  unfold put. cbn [fst snd]. now rewrite dict_set_fields.
Qed.

Lemma zip_other (k : text) (l : list (text * text)) :
  forall d, Forall (fun kv => fst kv <> k) l ->
    dict_get k (fold_left put l d) = dict_get k d.
Proof.
  induction l as [|[k' v] l IH]; intros d H; [reflexivity|].
  inversion H as [|? ? Hk Hl]; subst. cbn [fold_left]. rewrite IH by exact Hl.
  unfold put. cbn [fst snd]. apply dict_get_set_other. cbn in Hk. congruence.
Qed.

Lemma zip_distinct (hs vs : list text) :
  forall d, length hs = length vs -> NoDup hs ->
    (forall h, In h hs -> dict_get h d = None) ->
    fold_left put (combine hs vs) d = d ++ combine hs (map Str vs).
Proof.
  revert vs. induction hs as [|h hs IH]; intros [|v vs] d Hl Hnd Hnew;
    try discriminate; [now rewrite app_nil_r|].
  inversion Hnd as [|? ? Hnotin Hnd']; subst. cbn [combine fold_left map].
  unfold put at 2. cbn [fst snd].
  rewrite dict_set_new by (apply Hnew; now left).
  rewrite IH; [now rewrite <- app_assoc|simpl in Hl; lia|exact Hnd'|].
  intros h' Hin.
  assert (dict_get h' d = None) by (apply Hnew; now right).
  assert (h' <> h) by (intros ->; contradiction).
  clear - H H0. induction d as [|[k' v'] d IHd]; simpl in *.
  - now rewrite text_eqb_neq.
  - destruct (text_eqb h' k'); [discriminate|]. now apply IHd.
Qed.

Lemma combine_append {A B : Type} (a1 a2 : list A) (b1 b2 : list B) :
  length a1 = length b1 ->
  combine (a1 ++ a2) (b1 ++ b2) = combine a1 b1 ++ combine a2 b2.
Proof.
  revert b1. induction a1 as [|x a1 IH]; intros [|y b1] H; try discriminate;
    [reflexivity|].
  simpl. f_equal. apply IH. simpl in H. lia.
Qed.

(** X10: the record built from the header cells and the cells of a line,
    [dict(zip(headers, values))], has one field per distinct header name, in
    the order of first occurrence. With no header name repeated it pairs
    each name with its cell; when a name is repeated the cell of its last
    column is the one kept. *)
Theorem record_has_one_field_per_header_name (hs vs : list text) :
  length hs = length vs ->
  map fst (dict_zip hs vs) = first_occurrences hs
  /\ (NoDup hs -> dict_zip hs vs = combine hs (map Str vs))
  /\ (forall i k v,
        nth_error hs i = Some k ->
        nth_error vs i = Some v ->
        ~ In k (skipn (S i) hs) ->
        dict_get k (dict_zip hs vs) = Some (Str v)).
Proof.
  intros Hl. change (dict_zip hs vs) with (fold_left put (combine hs vs) []).
  split; [|split].
  - now rewrite zip_fields.
  - intros Hnd. now rewrite zip_distinct.
  - intros i k v Hk Hv Hlast.
    apply nth_error_split in Hk as (h1 & h2 & -> & Hi).
    apply nth_error_split in Hv as (v1 & v2 & -> & Hj).
    assert (Hl1 : length h1 = length v1) by lia.
    rewrite combine_append by exact Hl1.
    cbn [combine]. rewrite fold_left_app. cbn [fold_left].
    rewrite zip_other.
    + unfold put at 1. cbn [fst snd]. apply dict_get_set_same.
    + replace (skipn (S i) (h1 ++ k :: h2)) with h2 in Hlast.
      * apply Forall_forall. intros [k' v'] Hin. cbn. intros ->.
        apply Hlast. eapply in_combine_l; eauto.
      * rewrite skipn_app, <- Hi.
        replace (S (length h1) - length h1) with 1 by lia.
        rewrite skipn_all2 by lia. reflexivity.
Qed.

Lemma record_has_one_field_per_header_name_witness :
  map fst (dict_zip [txt "Volt"; txt "Curr"; txt "Volt"]
             [txt "1"; txt "2"; txt "3"])
  = [txt "Volt"; txt "Curr"]
  /\ (NoDup [txt "Volt"; txt "Curr"; txt "Volt"] ->
      dict_zip [txt "Volt"; txt "Curr"; txt "Volt"] [txt "1"; txt "2"; txt "3"]
      = combine [txt "Volt"; txt "Curr"; txt "Volt"]
          (map Str [txt "1"; txt "2"; txt "3"]))
  /\ (forall i k v,
        nth_error [txt "Volt"; txt "Curr"; txt "Volt"] i = Some k ->
        nth_error [txt "1"; txt "2"; txt "3"] i = Some v ->
        ~ In k (skipn (S i) [txt "Volt"; txt "Curr"; txt "Volt"]) ->
        dict_get k (dict_zip [txt "Volt"; txt "Curr"; txt "Volt"]
                      [txt "1"; txt "2"; txt "3"])
        = Some (Str v)).
Proof.
  apply (record_has_one_field_per_header_name
           [txt "Volt"; txt "Curr"; txt "Volt"] [txt "1"; txt "2"; txt "3"]).
  reflexivity.
Defined.

(** ** The parser: column offsets *)

Lemma findall_columns_matches :
  forall s run blanks,
    (blanks <> [] -> run <> []) ->
    Forall (fun m => 2 <= length m) (findall_columns run blanks s)
    /\ length (concat (findall_columns run blanks s))
       <= length run + length blanks + length s.
Proof.
  induction s as [|c s IH]; intros run blanks Hinv; cbn [findall_columns].
  - destruct run as [|x run], blanks as [|y blanks];
      try (split; [constructor | cbn; lia]).
    split.
    + constructor; [|constructor]. rewrite length_app. cbn. lia.
    + cbn [concat]. rewrite app_nil_r, length_app. cbn. lia.
  - destruct (c =? space)%N.
    + destruct run as [|x run].
      * destruct (IH [] []) as [H1 H2]; [congruence|]. split; [exact H1|]. cbn in *. lia.
      * destruct (IH (x :: run) (blanks ++ [c])) as [H1 H2]; [congruence|].
        split; [exact H1|]. rewrite length_app in H2. cbn in *. lia.
    + destruct blanks as [|y blanks].
      * destruct (IH (run ++ [c]) []) as [H1 H2]; [congruence|].
        split; [exact H1|]. rewrite length_app in H2. cbn in *. lia.
      * destruct (IH [c] []) as [H1 H2]; [congruence|].
        assert (run <> []) by (apply Hinv; congruence).
        split.
        -- constructor; [|exact H1]. rewrite length_app.
           destruct run; [congruence|]. cbn. lia.
        -- cbn [concat]. rewrite !length_app. cbn in *. lia.
Qed.

Lemma colstart_of_offsets (header : text) :
  colstart_of header = offsets 0 (findall_columns [] [] (str_rstrip header)).
Proof.
  unfold colstart_of.
  assert (G : forall (ms : list text) (init : list Z) (a : Z),
             fold_left (fun colstart m =>
                          colstart ++ [(last colstart 0 + Py.len m)%Z])
               ms (init ++ [a])
             = init ++ offsets a ms).
  { induction ms as [|m ms IH]; intros init a; cbn [fold_left offsets];
      [reflexivity|].
    rewrite last_last, IH, <- app_assoc. reflexivity. }
  exact (G _ [] 0%Z).
Qed.

Lemma offsets_sorted (ms : list text) :
  Forall (fun m => 2 <= length m) ms ->
  forall a,
    StronglySorted Z.lt (offsets a ms)
    /\ Forall (fun c => a <= c <= a + Py.len (concat ms))%Z (offsets a ms)
    /\ exists rest, offsets a ms = a :: rest
                    /\ Forall (fun c => a + 2 <= c)%Z rest.
Proof.
  induction 1 as [|m ms Hm _ IH]; intros a; cbn [offsets concat].
  - repeat split; [repeat constructor| |].
    + constructor; [|constructor]. unfold Py.len. cbn. lia.
    + exists []. split; [reflexivity|constructor].
  - destruct (IH (a + Py.len m)%Z) as (Hs & Hb & rest & Hr & Hrest).
    assert (Hlen : (2 <= Py.len m)%Z) by (unfold Py.len; lia).
    assert (Hcat : Py.len (m ++ concat ms) = (Py.len m + Py.len (concat ms))%Z)
      by (unfold Py.len; rewrite length_app; lia).
    repeat split.
    + constructor; [exact Hs|].
      eapply Forall_impl; [|exact Hb]. cbn. intros c Hc. lia.
    + constructor; [unfold Py.len in *; lia|].
      eapply Forall_impl; [|exact Hb]. cbn. intros c Hc. lia.
    + eexists. split; [reflexivity|].
      eapply Forall_impl; [|exact Hb]. cbn. intros c Hc. lia.
Qed.

(** X11: for every header line the column offsets start with 0, are
    strictly increasing, lie within the header line without its trailing
    whitespace, and each offset after the first is at least 2 (a column
    is at least one character and one space). *)
Theorem colstart_is_strictly_increasing (header : text) :
  StronglySorted Z.lt (colstart_of header)
  /\ Forall (fun c => 0 <= c <= Py.len (str_rstrip header))%Z
       (colstart_of header)
  /\ exists rest, colstart_of header = 0%Z :: rest
                  /\ Forall (fun c => 2 <= c)%Z rest.
Proof.
  rewrite colstart_of_offsets.
  destruct (findall_columns_matches (str_rstrip header) [] []) as [Hm Hl];
    [congruence|].
  destruct (offsets_sorted _ Hm 0%Z) as (Hs & Hb & rest & Hr & Hrest).
  repeat split; [exact Hs| |exists rest; split; [exact Hr|]].
  - eapply Forall_impl; [|exact Hb]. cbn. intros c Hc.
    unfold Py.len in *. cbn in Hl. lia.
  - eapply Forall_impl; [|exact Hrest]. cbn. intros c Hc. lia.
Qed.

(** ** The parser: when a line has its cells *)

Lemma index_nonneg {A : Type} (l : list A) (i : Z) :
  (0 <= i)%Z -> Py.index l i = nth_error l (Z.to_nat i).
Proof.
  intros H. unfold Py.index.
  destruct (Z.ltb_spec i 0); [lia|].
  destruct (Z.ltb_spec i 0); [lia|]. reflexivity.
Qed.

Lemma index_in_range {A : Type} (l : list A) (i : Z) :
  (0 <= i < Py.len l)%Z -> exists x, Py.index l i = Some x /\ In x l.
Proof.
  intros H. rewrite index_nonneg by lia. unfold Py.len in H.
  destruct (nth_error l (Z.to_nat i)) as [x|] eqn:E.
  - exists x. split; [reflexivity|]. eapply nth_error_In; eauto.
  - apply nth_error_None in E. lia.
Qed.

Lemma index_tail {A : Type} (x : A) (l : list A) (i : Z) :
  (0 <= i)%Z -> Py.index (x :: l) (i + 1) = Py.index l i.
Proof.
  intros H. rewrite !index_nonneg by lia.
  replace (Z.to_nat (i + 1)) with (S (Z.to_nat i)) by lia.
  reflexivity.
Qed.

Lemma traverse_total {A B : Type} (f : A -> option B) (l : list A) :
  (forall x, In x l -> exists y, f x = Some y) ->
  exists ys, traverse f l = Some ys.
Proof.
  induction l as [|x l IH]; intros H; cbn [traverse]; [now exists []|].
  destruct (H x) as [y Hy]; [now left|]. rewrite Hy.
  destruct IH as [ys Hys]; [intros; apply H; now right|].
  rewrite Hys. now eexists.
Qed.

Lemma traverse_some {A B : Type} (f : A -> option B) (l : list A) (ys : list B) :
  traverse f l = Some ys ->
  length ys = length l
  /\ (forall x, In x l -> exists y, f x = Some y /\ In y ys)
  /\ (forall y, In y ys -> exists x, In x l /\ f x = Some y).
Proof.
  revert ys. induction l as [|x l IH]; intros ys; cbn [traverse].
  - intros [= <-]. repeat split; intros ? [].
  - destruct (f x) as [y|] eqn:Ey; [|discriminate].
    destruct (traverse f l) as [ys'|]; [|discriminate].
    intros [= <-]. destruct (IH ys' eq_refl) as (Hl & Hf & Hb).
    repeat split.
    + cbn. now rewrite Hl.
    + intros x' [<-|Hin].
      * exists y. split; [exact Ey|now left].
      * destruct (Hf x' Hin) as (y' & H1 & H2). exists y'. split; [exact H1|now right].
    + intros y' [<-|Hin].
      * exists x. split; [now left|exact Ey].
      * destruct (Hb y' Hin) as (x' & H1 & H2). exists x'. split; [now right|exact H2].
Qed.

Lemma range_spec (n i : Z) : In i (Py.range n) <-> (0 <= i < n)%Z.
Proof.
  unfold Py.range. rewrite in_map_iff. split.
  - intros (k & <- & Hk). apply in_seq in Hk. lia.
  - intros H. exists (Z.to_nat i). split; [lia|]. apply in_seq. lia.
Qed.

Lemma cells_length (colstart : list Z) (line : text) (vs : list text) :
  cells colstart line = Some vs -> length vs = length colstart.
Proof.
  intros H. apply traverse_some in H as (Hl & _).
  rewrite Hl. unfold Py.range, Py.len. now rewrite length_map, length_seq, Nat2Z.id.
Qed.

Lemma getcell_total (colstart : list Z) (line : text) (cellno : Z) :
  layout colstart -> line <> [] ->
  (0 <= cellno < Py.len colstart)%Z ->
  exists v, getcell colstart line cellno = Some v.
Proof.
  intros (rest & -> & Hrest) Hline Hk.
  assert (Hlen : (1 <= Py.len line)%Z)
    by (unfold Py.len; destruct line; [congruence|cbn; lia]).
  unfold getcell.
  destruct (index_in_range _ _ Hk) as (start & Hs & Hin). rewrite Hs.
  assert (Hstart : (0 <= start)%Z).
  { destruct Hin as [<-|Hin]; [lia|].
    rewrite Forall_forall in Hrest. specialize (Hrest _ Hin). cbn in Hrest. lia. }
  assert (H1 : exists o, (if (Z.min (Py.len line) start =? 0)%Z
                          then Some (Z.min (Py.len line) start)
                          else before <- Py.index line (Z.min (Py.len line) start - 1) ;;
                               Some (if (before =? space)%N
                                     then Z.min (Py.len line) start
                                     else (Z.min (Py.len line) start - 1)%Z))
                         = Some o).
  { destruct (Z.eqb_spec (Z.min (Py.len line) start) 0); [now eexists|].
    destruct (index_in_range line (Z.min (Py.len line) start - 1))
      as (x & Hx & _); [lia|].
    rewrite Hx. now eexists. }
  destruct H1 as [o1 ->].
  assert (H2 : exists stop,
             (if (cellno + 1 <? Py.len (0%Z :: rest))%Z
              then Py.index (0%Z :: rest) (cellno + 1)
              else Some (Py.len line)) = Some stop /\ (1 <= stop)%Z).
  { destruct (Z.ltb_spec (cellno + 1) (Py.len (0%Z :: rest))).
    - rewrite index_tail by lia.
      destruct (index_in_range rest cellno) as (x & Hx & Hinx).
      + unfold Py.len in *. cbn [length] in *. lia.
      + exists x. split; [exact Hx|].
        rewrite Forall_forall in Hrest. specialize (Hrest _ Hinx). cbn in Hrest. lia.
    - exists (Py.len line). split; [reflexivity|lia]. }
  destruct H2 as (stop & -> & Hstop).
  destruct (index_in_range line (Z.min (Py.len line) stop - 1))
    as (x & Hx & _); [lia|].
  rewrite Hx. now eexists.
Qed.

Lemma cells_total (colstart : list Z) (line : text) :
  layout colstart -> line <> [] ->
  exists vs, cells colstart line = Some vs.
Proof.
  intros Hl Hline. unfold cells. apply traverse_total.
  intros i Hi. apply range_spec in Hi. now apply getcell_total.
Qed.

Lemma colstart_of_layout (header : text) : layout (colstart_of header).
Proof.
  rewrite colstart_of_offsets.
  destruct (findall_columns_matches (str_rstrip header) [] []) as [Hm _];
    [congruence|].
  destruct (offsets_sorted _ Hm 0%Z) as (_ & _ & rest & Hr & Hrest).
  exists rest. split; [exact Hr|].
  eapply Forall_impl; [|exact Hrest]. cbn. intros c Hc. lia.
Qed.

(** ** The parser: when it returns *)

Lemma first_occurrences_in (hs : list text) (k : text) :
  In k (first_occurrences hs) <-> In k hs.
Proof.
  unfold first_occurrences.
  assert (G : forall hs seen,
             In k (fold_left (fun seen h => if existsb (text_eqb h) seen
                                            then seen else seen ++ [h]) hs seen)
             <-> In k seen \/ In k hs).
  { clear hs. induction hs as [|h hs IH]; intros seen; cbn [fold_left].
    - cbn. tauto.
    - rewrite IH. destruct (existsb (text_eqb h) seen) eqn:E.
      + apply existsb_exists in E as (x & Hx & Hhx).
        apply text_eqb_eq in Hhx. subst x. cbn. intuition (subst; auto).
      + rewrite in_app_iff. cbn. tauto. }
  rewrite G. cbn. tauto.
Qed.

Lemma dict_zip_fields (hs vs : list text) :
  length hs = length vs -> map fst (dict_zip hs vs) = first_occurrences hs.
Proof. intros H. apply (zip_fields hs vs [] H). Qed.

Lemma has_status_fields (it : item) :
  has_status it = true <-> In (txt "Base.St") (map fst it).
Proof.
  unfold has_status, absent.
  pose proof (dict_get_keys (txt "Base.St") it) as H.
  destruct (dict_get (txt "Base.St") it).
  - split; [intros _|reflexivity].
    apply existsb_exists in H as (x & Hx & Hk). apply text_eqb_eq in Hk.
    now subst.
  - split; [discriminate|]. intros Hin.
    assert (E : existsb (text_eqb (txt "Base.St")) (map fst it) = true).
    { apply existsb_exists. eexists. split; [exact Hin|apply text_eqb_refl]. }
    congruence.
Qed.

Lemma power_table_lines (response : text) :
  power_table response
  = (let colstart := colstart_of (header_line response) in
     headers <- cells colstart (header_line response) ;;
     rows colstart headers (data_lines response) []).
Proof.
  unfold power_table, header_line, data_lines. rewrite slice_tail.
  pose proof (lines_of_nonempty response) as Hne.
  destruct (lines_of response) as [|l ls]; [congruence|]. reflexivity.
Qed.

Lemma rows_returns (colstart : list Z) (headers : list text) :
  layout colstart -> length headers = length colstart ->
  forall lines items,
    (exists out, rows colstart headers lines items = Some out)
    <-> Forall (fun line => line <> []) lines
        /\ (lines = [] \/ In (txt "Base.St") headers).
Proof.
  intros Hlay Hlen.
  assert (Hne : colstart <> []) by (destruct Hlay as (r & -> & _); discriminate).
  induction lines as [|line lines IH]; intros items; cbn [rows].
  - split; [intros _; split; [constructor|now left]|intros _; now eexists].
  - split.
    + intros [out Hout].
      destruct (cells colstart line) as [values|] eqn:Ec; [|discriminate].
      assert (Hline : line <> []).
      { intros ->. rewrite cells_empty_line in Ec by exact Hne. discriminate. }
      pose proof (cells_length _ _ _ Ec) as Hv.
      destruct (absent (dict_zip headers values)) as [skip|] eqn:Ea;
        [|discriminate].
      assert (Hst : In (txt "Base.St") headers).
      { apply first_occurrences_in. rewrite <- (dict_zip_fields headers values)
          by congruence.
        apply has_status_fields. unfold has_status. now rewrite Ea. }
      assert (Hrest : Forall (fun l => l <> []) lines).
      { destruct skip;
          [apply (proj1 (IH items))
          |apply (proj1 (IH (items ++ [coerce (dict_zip headers values)])))];
          eauto. }
      split; [now constructor|now right].
    + intros [Hall [Hnil|Hst]]; [discriminate|].
      inversion Hall as [|? ? Hline Hlines]; subst.
      destruct (cells_total colstart line Hlay Hline) as [values Ec].
      rewrite Ec. pose proof (cells_length _ _ _ Ec) as Hv.
      assert (Hs : has_status (dict_zip headers values) = true).
      { apply has_status_fields. rewrite dict_zip_fields by congruence.
        now apply first_occurrences_in. }
      unfold has_status in Hs.
      destruct (absent (dict_zip headers values)) as [skip|]; [|discriminate].
      destruct skip;
        [apply (proj2 (IH items))
        |apply (proj2 (IH (items ++ [coerce (dict_zip headers values)])))];
        split; auto.
Qed.

Lemma power_table_returns (response : text) :
  (exists items, power_table response = Some items)
  <-> Forall (fun line => line <> []) (lines_of response)
      /\ (data_lines response = []
          \/ exists headers,
               cells (colstart_of (header_line response)) (header_line response)
               = Some headers
               /\ In (txt "Base.St") headers).
Proof.
  rewrite power_table_lines. cbv zeta.
  pose proof (lines_of_nonempty response) as Hne.
  unfold header_line, data_lines.
  destruct (lines_of response) as [|line0 lines]; [congruence|].
  cbn [hd tl].
  pose proof (colstart_of_layout line0) as Hlay.
  split.
  - intros [items H].
    destruct (cells (colstart_of line0) line0) as [headers|] eqn:Ec;
      [|discriminate].
    assert (H0 : line0 <> []).
    { intros ->. rewrite cells_empty_line in Ec; [discriminate|].
      apply colstart_of_nonempty. }
    pose proof (cells_length _ _ _ Ec) as Hl.
    destruct (proj1 (rows_returns _ headers Hlay Hl lines [])) as [Hall Hst];
      [eauto|].
    split; [now constructor|].
    destruct Hst as [->|Hst]; [now left|right; eauto].
  - intros [Hall Hst]. inversion Hall as [|? ? H0 Hlines]; subst.
    destruct (cells_total _ line0 Hlay H0) as [headers Ec]. rewrite Ec.
    pose proof (cells_length _ _ _ Ec) as Hl.
    apply (rows_returns _ headers Hlay Hl). split; [exact Hlines|].
    destruct Hst as [->|(hs & Hc & Hin)]; [now left|right].
    rewrite Ec in Hc. now injection Hc as ->.
Qed.

(** X12: the parser returns (rather than raising "Error parsing power")
    exactly when no line of the response is empty and, if there is any
    line after the header, one of the header cells is "Base.St". *)
Theorem parser_returns_exactly_when (response : text) :
  (exists items, parsePowerTable response = Return items)
  <-> Forall (fun line => line <> []) (lines_of response)
      /\ (data_lines response = []
          \/ exists headers,
               cells (colstart_of (header_line response)) (header_line response)
               = Some headers
               /\ In (txt "Base.St") headers).
Proof.
  rewrite <- power_table_returns. unfold parsePowerTable.
  destruct (power_table response) as [items|]; split.
  - intros _. now eexists.
  - intros _. now eexists.
  - intros [items H]. discriminate.
  - intros [items H]. discriminate.
Qed.

Lemma rows_fields (colstart : list Z) (headers : list text) :
  length headers = length colstart ->
  forall lines items out,
    rows colstart headers lines items = Some out ->
    Forall (fun it => map fst it = first_occurrences headers) items ->
    Forall (fun it => map fst it = first_occurrences headers) out
    /\ length out <= length items + length lines.
Proof.
  intros Hlen. induction lines as [|line lines IH]; intros items out; cbn [rows].
  - intros [= <-] H. split; [exact H|cbn; lia].
  - destruct (cells colstart line) as [values|] eqn:Ec; [|discriminate].
    pose proof (cells_length _ _ _ Ec) as Hv.
    destruct (absent (dict_zip headers values)) as [[|]|]; [| |discriminate];
      intros Hr Hitems.
    + destruct (IH _ _ Hr Hitems) as [H1 H2]. split; [exact H1|cbn; lia].
    + destruct (IH _ _ Hr) as [H1 H2].
      * apply Forall_app. split; [exact Hitems|]. constructor; [|constructor].
        rewrite coerce_keys. apply dict_zip_fields. congruence.
      * split; [exact H1|]. rewrite length_app in H2. cbn in *. lia.
Qed.

(** X13: when the parser returns, every record has the same fields: the
    distinct header cells in order, as many cells as there are column
    offsets; and there are at most as many records as lines after the
    header. *)
Theorem records_share_the_header_fields (response : text) (items : list item) :
  parsePowerTable response = Return items ->
  exists headers,
    cells (colstart_of (header_line response)) (header_line response)
    = Some headers
    /\ length headers = length (colstart_of (header_line response))
    /\ Forall (fun it => map fst it = first_occurrences headers) items
    /\ length items <= length (data_lines response).
Proof.
  unfold parsePowerTable. rewrite power_table_lines. cbv zeta.
  destruct (cells _ (header_line response)) as [headers|] eqn:Ec;
    [|discriminate].
  pose proof (cells_length _ _ _ Ec) as Hl.
  destruct (rows _ headers (data_lines response) []) as [out|] eqn:Er;
    [|discriminate].
  intros [= <-]. exists headers.
  destruct (rows_fields _ headers Hl _ _ _ Er (Forall_nil _)) as [H1 H2].
  repeat split; auto.
Qed.

Lemma records_share_the_header_fields_witness :
  exists headers,
    cells (colstart_of (header_line two_slots)) (header_line two_slots)
    = Some headers
    /\ length headers = length (colstart_of (header_line two_slots))
    /\ Forall (fun it => map fst it = first_occurrences headers)
         [[(txt "Power", Int 120);
           (txt "Base.St", Str (txt "Normal"));
           (txt "Coulomb", Int 91)]]
    /\ length [[(txt "Power", Int 120);
                (txt "Base.St", Str (txt "Normal"));
                (txt "Coulomb", Int 91)]]
       <= length (data_lines two_slots).
Proof.
  apply (records_share_the_header_fields two_slots). reflexivity.
Defined.

(** ** The parser: cells in fixed-width columns *)

Lemma dropwhile_decompose {A} (p : A -> bool) (l : list A) :
  exists a, l = a ++ Py.dropwhile p l /\ forallb p a = true.
Proof.
  induction l as [|x l (a & Ha & Hp)]; [now exists []|].
  cbn [Py.dropwhile]. destruct (p x) eqn:E.
  - exists (x :: a). cbn. rewrite E, Hp. split; [now f_equal|reflexivity].
  - now exists [].
Qed.

Lemma dropwhile_length {A} (p : A -> bool) (l : list A) :
  length (Py.dropwhile p l) <= length l.
Proof.
  destruct (dropwhile_decompose p l) as (a & Ha & _).
  rewrite Ha at 2. rewrite length_app. lia.
Qed.

Lemma dropwhile_fixed {A} (p : A -> bool) (l : list A) :
  length l <= length (Py.dropwhile p l) ->
  forall r, Py.dropwhile p (l ++ r) = match l with [] => Py.dropwhile p r | _ => l ++ r end.
Proof.
  destruct l as [|x l]; [reflexivity|]. cbn [Py.dropwhile app].
  destruct (p x); [|reflexivity].
  intros H. pose proof (dropwhile_length p l). cbn in H. lia.
Qed.

Lemma strip_fixed (v : text) :
  str_strip v = v -> Py.dropwhile isspace v = v /\ str_rstrip v = v.
Proof.
  unfold str_strip, str_rstrip, Py.strip_by, Py.rstrip_by. intros H.
  pose proof (dropwhile_length isspace v) as H1.
  pose proof (dropwhile_length isspace (rev (Py.dropwhile isspace v))) as H2.
  assert (Hl : length v <= length (Py.dropwhile isspace v)).
  { rewrite <- H at 1. rewrite length_rev. rewrite length_rev in H2. exact H2. }
  destruct (dropwhile_decompose isspace v) as (a & Ha & _).
  assert (a = []).
  { destruct a; [reflexivity|]. rewrite Ha in Hl at 1.
    rewrite length_app in Hl. cbn in Hl. lia. }
  subst a. cbn in Ha. rewrite <- Ha in H. rewrite <- Ha. now split.
Qed.

Lemma spaces_are_space (k : nat) : forallb isspace (repeat space k) = true.
Proof. induction k; [reflexivity|]. cbn [repeat forallb]. now rewrite IHk. Qed.

Lemma strip_pad (w : nat) (v : text) :
  str_strip v = v -> str_strip (pad w v) = v.
Proof.
  intros H. destruct (strip_fixed v H) as [Hd Hr].
  unfold str_strip, Py.strip_by, pad.
  rewrite dropwhile_fixed by (rewrite Hd; lia).
  destruct v as [|c v].
  - rewrite <- (app_nil_r (repeat space _)).
    rewrite dropwhile_all by apply spaces_are_space. reflexivity.
  - rewrite rstrip_by_trailing by apply spaces_are_space. exact Hr.
Qed.

Lemma slice_nat {A} (pre m post : list A) :
  Py.slice (pre ++ m ++ post) (Some (Py.len pre)) (Some (Py.len pre + Py.len m)%Z)
  = m.
Proof.
  unfold Py.slice, Py.clamp, Py.len. rewrite !length_app.
  destruct (Z.ltb_spec (Z.of_nat (length pre)) 0); [lia|].
  destruct (Z.ltb_spec (Z.of_nat (length pre) + Z.of_nat (length m)) 0); [lia|].
  replace (Z.to_nat (Z.min (Z.max (Z.of_nat (length pre)) 0)
             (Z.of_nat (length pre + (length m + length post)))))
    with (length pre) by lia.
  replace (Z.to_nat (Z.min (Z.max (Z.of_nat (length pre) + Z.of_nat (length m)) 0)
             (Z.of_nat (length pre + (length m + length post)))))
    with (length pre + length m) by lia.
  rewrite skipn_app, skipn_all, Nat.sub_diag. cbn [app skipn].
  replace (length pre + length m - length pre) with (length m + 0) by lia.
  rewrite firstn_app_2. cbn. apply app_nil_r.
Qed.

Lemma index_middle {A} (t : list A) (c : A) (post : list A) :
  Py.index (t ++ c :: post) (Py.len t) = Some c.
Proof.
  unfold Py.len. rewrite index_nonneg by lia. rewrite Nat2Z.id.
  rewrite nth_error_app2 by lia. now rewrite Nat.sub_diag.
Qed.

Lemma pad_length (w : nat) (v : text) :
  length v <= w -> length (pad w v) = w.
Proof. intros H. unfold pad. rewrite length_app, repeat_length. lia. Qed.

Lemma pad_ends_in_space (w : nat) (v : text) :
  length v < w -> exists t, pad w v = t ++ [space].
Proof.
  intros H. unfold pad. destruct (w - length v) as [|k] eqn:E; [lia|].
  exists (v ++ repeat space k). rewrite <- app_assoc. f_equal.
  apply repeat_cons.
Qed.

Lemma getcell_fixed (colstart : list Z) (line pre post e v : text) (w : nat)
    (i : Z) :
  Py.index colstart i = Some (Py.len pre) ->
  (if (i + 1 <? Py.len colstart)%Z then Py.index colstart (i + 1)
   else Some (Py.len line)) = Some (Py.len pre + Z.of_nat w + Py.len e)%Z ->
  line = pre ++ pad w v ++ e ++ post ->
  length v < w -> str_strip v = v ->
  (pre = [] \/ exists t, pre = t ++ [space]) ->
  (e = [] \/ exists c, e = [c] /\ c <> space) ->
  getcell colstart line i = Some v.
Proof.
  intros Hstart Hstop Hline Hw Hv Hpre He.
  assert (Hpl : length (pad w v) = w) by (apply pad_length; lia).
  assert (Hlen : Py.len line
                 = (Py.len pre + Z.of_nat w + Py.len e + Py.len post)%Z).
  { subst line. unfold Py.len. rewrite !length_app, Hpl. lia. }
  unfold getcell. rewrite Hstart, Hstop.
  replace (Z.min (Py.len line) (Py.len pre)) with (Py.len pre)
    by (unfold Py.len in *; lia).
  replace (Z.min (Py.len line) (Py.len pre + Z.of_nat w + Py.len e)) with
    (Py.len pre + Z.of_nat w + Py.len e)%Z by (unfold Py.len in *; lia).
  assert (H1 : (if (Py.len pre =? 0)%Z then Some (Py.len pre)
                else before <- Py.index line (Py.len pre - 1) ;;
                     Some (if (before =? space)%N then Py.len pre
                           else (Py.len pre - 1)%Z))
               = Some (Py.len pre)).
  { destruct Hpre as [->|[t ->]]; [reflexivity|].
    destruct (Z.eqb_spec (Py.len (t ++ [space])) 0); [reflexivity|].
    replace (Py.len (t ++ [space]) - 1)%Z with (Py.len t)
      by (unfold Py.len; rewrite length_app; cbn; lia).
    subst line. rewrite <- !app_assoc. cbn [app].
    rewrite index_middle. now rewrite N.eqb_refl. }
  rewrite H1.
  destruct (pad_ends_in_space w v Hw) as [t Ht].
  destruct He as [->|(c & -> & Hc)].
  - assert (H2 : Py.index line (Py.len pre + Z.of_nat w + Py.len (@nil char) - 1)
                 = Some space).
    { subst line. rewrite Ht.
      replace (Py.len pre + Z.of_nat w + Py.len (@nil char) - 1)%Z
        with (Py.len (pre ++ t)).
      - rewrite <- (app_assoc t), app_assoc. cbn [app]. apply index_middle.
      - rewrite Ht in Hpl. unfold Py.len. rewrite length_app in *.
        cbn in *. lia. }
    rewrite H2, N.eqb_refl. subst line.
    replace (Py.len pre + Z.of_nat w + Py.len (@nil char))%Z
      with (Py.len pre + Py.len (pad w v))%Z
      by (unfold Py.len; rewrite Hpl; cbn; lia).
    cbn [app]. rewrite slice_nat. now rewrite strip_pad.
  - assert (H2 : Py.index line (Py.len pre + Z.of_nat w + Py.len [c] - 1)
                 = Some c).
    { subst line.
      replace (Py.len pre + Z.of_nat w + Py.len [c] - 1)%Z
        with (Py.len (pre ++ pad w v))
        by (unfold Py.len; rewrite length_app, Hpl; cbn; lia).
      rewrite app_assoc. cbn [app]. apply index_middle. }
    rewrite H2. apply N.eqb_neq in Hc. rewrite Hc. subst line.
    replace (Py.len pre + Z.of_nat w + Py.len [c] - 1)%Z
      with (Py.len pre + Py.len (pad w v))%Z
      by (unfold Py.len; rewrite Hpl; cbn; lia).
    rewrite slice_nat. now rewrite strip_pad.
Qed.

Lemma pad_wider (w : nat) (v : text) :
  length v <= w -> pad (S w) v = pad w v ++ [space].
Proof.
  intros H. unfold pad. replace (S w - length v) with (S (w - length v)) by lia.
  rewrite <- app_assoc. f_equal. apply repeat_cons.
Qed.

Lemma findall_word (h : text) :
  spaceless h ->
  forall run s, findall_columns run [] (h ++ s) = findall_columns (run ++ h) [] s.
Proof.
  unfold spaceless. induction h as [|c h IH]; intros H run s; cbn [app].
  - now rewrite app_nil_r.
  - cbn [forallb] in H. apply andb_true_iff in H as [Hc Hh].
    cbn [findall_columns]. apply negb_true_iff in Hc. rewrite Hc.
    rewrite IH by exact Hh. now rewrite <- app_assoc.
Qed.

Lemma findall_blanks (k : nat) :
  forall run blanks s, run <> [] ->
    findall_columns run blanks (repeat space k ++ s)
    = findall_columns run (blanks ++ repeat space k) s.
Proof.
  induction k as [|k IH]; intros run blanks s Hrun; cbn [repeat app].
  - now rewrite app_nil_r.
  - cbn [findall_columns]. rewrite N.eqb_refl.
    destruct run as [|x run]; [congruence|].
    rewrite IH by discriminate. now rewrite <- app_assoc.
Qed.

Lemma findall_column (w : nat) (h : text) (c : char) (r : text) :
  h <> [] -> spaceless h -> length h < w -> (c =? space)%N = false ->
  findall_columns [] [] (pad w h ++ c :: r)
  = pad w h :: findall_columns [] [] (c :: r).
Proof.
  intros Hne Hs Hw Hc. unfold pad. rewrite <- app_assoc.
  rewrite findall_word by exact Hs. cbn [app].
  rewrite findall_blanks by exact Hne. cbn [app].
  destruct (w - length h) as [|k] eqn:E; [lia|].
  cbn [findall_columns repeat]. rewrite Hc. reflexivity.
Qed.

Lemma names_spaceless (w : nat) (h : text) : names w h -> spaceless h.
Proof.
  intros (_ & _ & H). unfold spaceless. rewrite forallb_forall in *.
  intros c Hc. specialize (H c Hc). apply negb_true_iff in H.
  apply negb_true_iff. destruct (N.eqb_spec c space) as [->|]; [|reflexivity].
  discriminate.
Qed.

Lemma first_character (cols : list (nat * text)) (last : text) :
  Forall named cols -> last <> [] -> spaceless last ->
  exists c r, concat (map column cols) ++ last = c :: r
              /\ (c =? space)%N = false.
Proof.
  intros Hcols Hne Hs.
  assert (G : forall h : text, h <> [] -> spaceless h ->
                forall s, exists c r, h ++ s = c :: r /\ (c =? space)%N = false).
  { intros [|c h] Hh Hsp s; [congruence|]. exists c, (h ++ s).
    split; [reflexivity|]. unfold spaceless in Hsp. cbn in Hsp.
    apply andb_true_iff in Hsp as [Hc _]. now apply negb_true_iff in Hc. }
  destruct Hcols as [|[w h] cols Hn Hcols].
  { cbn [map concat app]. rewrite <- (app_nil_r last). now apply G. }
  cbn [map concat]. unfold column at 1, pad. cbn [fst snd].
  rewrite <- !app_assoc. apply G.
  - apply Hn.
  - eapply names_spaceless, Hn.
Qed.

Lemma findall_header (cols : list (nat * text)) (last : text) :
  Forall named cols -> last <> [] -> spaceless last ->
  findall_columns [] [] (concat (map column cols) ++ last) = map column cols.
Proof.
  intros Hcols Hne Hs. induction Hcols as [|[w h] cols Hn Hcols IH].
  - cbn [map concat app]. rewrite <- (app_nil_r last).
    rewrite findall_word by exact Hs. cbn [app findall_columns].
    now destruct last.
  - cbn [map concat]. rewrite <- app_assoc.
    destruct (first_character cols last Hcols Hne Hs) as (c & r & Hr & Hc).
    rewrite Hr. unfold column at 1 2. cbn [fst snd].
    destruct Hn as (H1 & H2 & H3). cbn [fst snd] in *.
    rewrite findall_column; auto.
    + now rewrite <- Hr, IH.
    + eapply names_spaceless. repeat split; eauto.
Qed.

Lemma combine_last {A B : Type} (l : list A) (l' : list B) :
  length l = length l' -> l' <> [] ->
  exists cols x y, combine l l' = cols ++ [(x, y)]
                   /\ l = map fst cols ++ [x] /\ l' = map snd cols ++ [y].
Proof.
  revert l'. induction l as [|a l IH]; intros [|b l'] Hl Hne;
    try discriminate; [congruence|].
  destruct l' as [|b' l'].
  - destruct l; [|discriminate]. exists [], a, b. now repeat split.
  - destruct (IH (b' :: l')) as (cols & x & y & H1 & H2 & H3);
      [cbn in *; lia|discriminate|].
    exists ((a, b) :: cols), x, y. cbn [combine] in *. rewrite H1.
    cbn [map fst snd app]. rewrite <- H2, <- H3. now repeat split.
Qed.

Lemma forall2_combine {A B : Type} (P : A -> B -> Prop) (l : list A) (l' : list B) :
  Forall2 P l l' ->
  length l = length l' /\ Forall (fun ab => P (fst ab) (snd ab)) (combine l l').
Proof.
  induction 1 as [|a b l l' H _ [IH1 IH2]]; [split; [reflexivity|constructor]|].
  split; [cbn; now rewrite IH1|]. cbn [combine]. now constructor.
Qed.

Lemma colstart_of_fixed_width (ws : list nat) (hs : list text) :
  hs <> [] -> Forall2 names ws hs ->
  exists cols w h,
    combine ws hs = cols ++ [(w, h)]
    /\ ws = map fst cols ++ [w]
    /\ colstart_of (fixed_width ws hs) = offsets 0 (map column cols).
Proof.
  intros Hne Hn. destruct (forall2_combine _ _ _ Hn) as [Hl Hall].
  destruct (combine_last ws hs Hl Hne) as (cols & w & h & Hc & Hws & Hhs).
  exists cols, w, h. split; [exact Hc|]. split; [exact Hws|].
  rewrite colstart_of_offsets. f_equal.
  unfold fixed_width. rewrite Hc, map_app, concat_app.
  cbn [map concat]. rewrite app_nil_r. unfold column at 2, pad. cbn [fst snd].
  rewrite Hc in Hall. apply Forall_app in Hall as [Hcols Hlast].
  inversion Hlast as [|? ? (H1 & H2 & H3) _]; subst. cbn [fst snd] in *.
  unfold str_rstrip. rewrite app_assoc.
  rewrite rstrip_by_trailing by apply spaces_are_space.
  assert (Hs : spaceless h) by (eapply names_spaceless; repeat split; eauto).
  destruct (exists_last H1) as (h' & c & ->).
  rewrite app_assoc. rewrite rstrip_by_last.
  - rewrite <- app_assoc. apply findall_header; auto.
  - rewrite forallb_app in H3. apply andb_true_iff in H3 as [_ H3].
    cbn in H3. rewrite andb_true_r in H3. now apply negb_true_iff in H3.
Qed.

Lemma offsets_length (ms : list text) :
  forall a, length (offsets a ms) = S (length ms).
Proof. induction ms as [|m ms IH]; intros a; cbn; [reflexivity|now rewrite IH]. Qed.

Lemma offsets_nth (ms : list text) :
  forall a i, i <= length ms ->
    nth_error (offsets a ms) i = Some (a + Py.len (concat (firstn i ms)))%Z.
Proof.
  induction ms as [|m ms IH]; intros a i Hi.
  - cbn in Hi. replace i with 0 by lia. cbn. f_equal. unfold Py.len. cbn. lia.
  - destruct i as [|i]; cbn [offsets nth_error firstn concat].
    + f_equal. unfold Py.len. cbn. lia.
    + rewrite IH by (cbn in Hi; lia). f_equal. unfold Py.len.
      rewrite length_app. lia.
Qed.

Lemma columns_length (cols : list (nat * text)) :
  Forall roomy cols ->
  length (concat (map column cols)) = list_sum (map fst cols).
Proof.
  induction 1 as [|[w v] cols H _ IH]; [reflexivity|].
  cbn [map concat list_sum fst]. rewrite length_app, IH. unfold column.
  cbn [fst snd]. rewrite pad_length; [reflexivity|]. unfold roomy in H. cbn in H. lia.
Qed.

Lemma columns_end_in_space (cols : list (nat * text)) :
  Forall roomy cols ->
  concat (map column cols) = [] \/ exists t, concat (map column cols) = t ++ [space].
Proof.
  intros H. destruct cols as [|c0 cols0]; [now left|].
  destruct (@exists_last _ (c0 :: cols0)) as (cols' & [w v] & E);
    [discriminate|]. rewrite E in *. clear E.
  - right. apply Forall_app in H as [_ H]. inversion H as [|? ? Hr _]; subst.
    rewrite map_app, concat_app. cbn [map concat]. rewrite app_nil_r.
    destruct (pad_ends_in_space w v Hr) as [t Ht]. unfold column. cbn [fst snd].
    rewrite Ht. exists (concat (map column cols') ++ t). now rewrite app_assoc.
Qed.

Lemma combine_fst {A B : Type} (l : list A) (l' : list B) :
  length l = length l' -> map fst (combine l l') = l.
Proof.
  revert l'. induction l as [|a l IH]; intros [|b l'] H; try discriminate;
    [reflexivity|].
  cbn. f_equal. apply IH. cbn in H. lia.
Qed.

Lemma combine_snd {A B : Type} (l : list A) (l' : list B) :
  length l = length l' -> map snd (combine l l') = l'.
Proof.
  revert l'. induction l as [|a l IH]; intros [|b l'] H; try discriminate;
    [reflexivity|].
  cbn. f_equal. apply IH. cbn in H. lia.
Qed.

Lemma traverse_range {A : Type} (f : Z -> option A) (l : list A) :
  (forall i x, nth_error l i = Some x -> f (Z.of_nat i) = Some x) ->
  traverse f (Py.range (Py.len l)) = Some l.
Proof.
  unfold Py.range, Py.len. rewrite Nat2Z.id.
  assert (G : forall l a,
             (forall i x, nth_error l i = Some x -> f (Z.of_nat (a + i)) = Some x) ->
             traverse f (map Z.of_nat (seq a (length l))) = Some l).
  { clear l. induction l as [|x l IH]; intros a H; [reflexivity|].
    cbn [length seq map traverse].
    rewrite <- (Nat.add_0_r a) at 1. rewrite (H 0 x eq_refl).
    rewrite IH; [reflexivity|].
    intros i y Hy. replace (S a + i) with (a + S i) by lia. now apply H. }
  intros H. apply G. exact H.
Qed.

Lemma traverse_map {A B C : Type} (f : B -> option C) (g : A -> B)
    (h : A -> C) (l : list A) :
  (forall x, In x l -> f (g x) = Some (h x)) ->
  traverse f (map g l) = Some (map h l).
Proof.
  induction l as [|x l IH]; intros H; [reflexivity|].
  cbn [map traverse]. rewrite H by now left.
  rewrite IH; [reflexivity|]. intros y Hy. apply H. now right.
Qed.

Lemma fits_roomy (ws : list nat) (vs : list text) :
  Forall2 fits ws vs -> Forall roomy (combine ws vs).
Proof.
  induction 1 as [|w v ws vs (H & _) _ IH]; [constructor|].
  cbn [combine]. constructor; [exact H|exact IH].
Qed.

Lemma names_roomy (cols : list (nat * text)) :
  Forall named cols -> Forall roomy cols.
Proof. apply Forall_impl. intros [w h] (_ & H & _). exact H. Qed.

Lemma colstart_of_trailing (header e : text) :
  forallb isspace e = true -> colstart_of (header ++ e) = colstart_of header.
Proof.
  intros H. unfold colstart_of, str_rstrip.
  now rewrite rstrip_by_trailing by exact H.
Qed.

Lemma cells_of_fixed_width (ws : list nat) (hs vs : list text) (eh e : text) :
  hs <> [] -> Forall2 names ws hs -> Forall2 fits ws vs ->
  forallb isspace eh = true -> length e <= 1 ->
  cells (colstart_of (fixed_width ws hs ++ eh)) (fixed_width ws vs ++ e)
  = Some vs.
Proof.
  intros Hne Hn Hf Heh He. rewrite colstart_of_trailing by exact Heh.
  destruct (colstart_of_fixed_width ws hs Hne Hn) as (cols & w & h & Hc & Hws & ->).
  destruct (forall2_combine _ _ _ Hn) as [Hlh Hnamed].
  destruct (forall2_combine _ _ _ Hf) as [Hlv Hfits].
  pose proof (fits_roomy _ _ Hf) as Hroomy.
  assert (Hcr : Forall roomy cols).
  { rewrite Hc in Hnamed. apply Forall_app in Hnamed as [Hnamed _].
    now apply names_roomy. }
  assert (Hn1 : length ws = S (length cols)).
  { rewrite Hws, length_app, length_map. cbn. lia. }
  unfold cells.
  replace (Py.len (offsets 0 (map column cols))) with (Py.len vs)
    by (unfold Py.len; rewrite offsets_length, length_map; lia).
  apply traverse_range. intros i v Hv.
  assert (Hi : i < length vs) by (apply nth_error_Some; congruence).
  destruct (nth_error ws i) as [wi|] eqn:Ewi;
    [|apply nth_error_None in Ewi; lia].
  assert (Hcol : nth_error (combine ws vs) i = Some (wi, v)).
  { clear - Ewi Hv. revert ws vs Ewi Hv.
    induction i as [|i IH]; intros [|a ws] [|b vs]; cbn; try discriminate.
    - now intros [= ->] [= ->].
    - apply IH. }
  destruct (nth_error_split _ _ Hcol) as (rpre & rpost & Hsplit & Hlen).
  assert (Hws2 : ws = map fst rpre ++ wi :: map fst rpost).
  { rewrite <- (combine_fst ws vs Hlv), Hsplit, map_app. reflexivity. }
  rewrite Hsplit in Hroomy, Hfits.
  apply Forall_app in Hroomy as [Hrpre Hrrest].
  inversion Hrrest as [|? ? Hri Hrpost]; subst x l.
  apply Forall_app in Hfits as [_ Hfits].
  inversion Hfits as [|? ? (Hfi1 & Hfi2 & Hfi3) _]; subst x l.
  cbn [fst snd] in *.
  assert (Hprefix : forall k, k <= length cols ->
             length (concat (firstn k (map column cols)))
             = list_sum (firstn k ws)).
  { intros k Hk. rewrite firstn_map, columns_length.
    - rewrite <- firstn_map. rewrite Hws at 1. rewrite firstn_app.
      rewrite length_map. replace (k - length cols) with 0 by lia.
      cbn [firstn]. now rewrite app_nil_r.
    - clear - Hcr. revert k. induction Hcr; intros [|k]; cbn; auto. }
  assert (Hpre : length (concat (map column rpre)) = list_sum (firstn i ws)).
  { rewrite columns_length by exact Hrpre. f_equal. rewrite Hws2.
    rewrite firstn_app, length_map, Hlen, Nat.sub_diag. cbn [firstn].
    rewrite app_nil_r. rewrite <- (length_map fst rpre) in Hlen.
    rewrite <- Hlen. now rewrite firstn_all. }
  assert (Hnext : list_sum (firstn (S i) ws)
                  = length (concat (map column rpre)) + wi).
  { rewrite columns_length by exact Hrpre. rewrite Hws2.
    rewrite firstn_app, length_map, Hlen.
    rewrite (firstn_all2 (n := S i)) by (rewrite length_map; lia).
    replace (S i - i) with 1 by lia.
    rewrite list_sum_app. cbn. lia. }
  assert (Hstart : Py.index (offsets 0 (map column cols)) (Z.of_nat i)
                   = Some (Py.len (concat (map column rpre)))).
  { rewrite index_nonneg by lia. rewrite Nat2Z.id.
    rewrite offsets_nth by (rewrite length_map; lia).
    f_equal. unfold Py.len. rewrite Hprefix by lia. lia. }
  assert (Hline : fixed_width ws vs ++ e
                  = concat (map column rpre) ++ pad wi v
                    ++ concat (map column rpost) ++ e).
  { unfold fixed_width. rewrite Hsplit, map_app, concat_app.
    cbn [map concat]. unfold column at 2. cbn [fst snd].
    now rewrite <- !app_assoc. }
  assert (Hends := columns_end_in_space rpre Hrpre).
  assert (Hcl : Py.len (offsets 0 (map column cols)) = Z.of_nat (length ws)).
  { unfold Py.len. rewrite offsets_length, length_map. lia. }
  destruct rpost as [|col rpost].
  - (* the last cell: its right boundary is the end of the line *)
    assert (Hlast : S i = length ws).
    { rewrite Hws2, length_app, length_map. cbn. lia. }
    assert (Hstop : forall k : nat,
               Py.len (fixed_width ws vs ++ e)
               = (Py.len (concat (map column rpre)) + Z.of_nat wi + Z.of_nat k)%Z ->
               (if (Z.of_nat i + 1 <? Py.len (offsets 0 (map column cols)))%Z
                then Py.index (offsets 0 (map column cols)) (Z.of_nat i + 1)
                else Some (Py.len (fixed_width ws vs ++ e)))
               = Some (Py.len (concat (map column rpre)) + Z.of_nat wi
                       + Z.of_nat k)%Z).
    { intros k Hk. rewrite Hcl.
      destruct (Z.ltb_spec (Z.of_nat i + 1) (Z.of_nat (length ws))); [lia|].
      now rewrite Hk. }
    assert (Hll : Py.len (fixed_width ws vs ++ e)
                  = (Py.len (concat (map column rpre)) + Z.of_nat wi
                     + Z.of_nat (length e))%Z).
    { rewrite Hline. unfold Py.len. rewrite !length_app.
      rewrite pad_length by lia. cbn. lia. }
    cbn [map concat app] in Hline.
    destruct e as [|c e]; [|destruct e as [|c' e]; [|cbn in He; lia]].
    + apply (getcell_fixed _ _ (concat (map column rpre)) [] [] v wi);
        auto.
      replace (Py.len (@nil char)) with (Z.of_nat 0) by reflexivity.
      now apply Hstop.
    + destruct (N.eq_dec c space) as [->|Hcs].
      * apply (getcell_fixed _ _ (concat (map column rpre)) [] [] v (S wi));
          auto.
        -- replace (Py.len (@nil char)) with (Z.of_nat 0) by reflexivity.
           rewrite (Hstop 1%nat) by exact Hll. f_equal. lia.
        -- rewrite Hline, pad_wider by lia. now rewrite <- !app_assoc.
      * apply (getcell_fixed _ _ (concat (map column rpre)) [] [c] v wi);
          auto.
        -- now apply Hstop.
        -- right. now exists c.
  - apply (getcell_fixed _ _ (concat (map column rpre))
             (concat (map column (col :: rpost)) ++ e) [] v wi); auto.
    rewrite Hcl.
    assert (Hmore : S i < length ws).
    { rewrite Hws2, length_app, length_map. cbn. lia. }
    destruct (Z.ltb_spec (Z.of_nat i + 1) (Z.of_nat (length ws))); [|lia].
    rewrite index_nonneg by lia.
    replace (Z.to_nat (Z.of_nat i + 1)) with (S i) by lia.
    rewrite offsets_nth by (rewrite length_map; lia).
    f_equal. unfold Py.len. rewrite Hprefix by lia. cbn [length]. lia.
Qed.

(** ** The parser: fixed-width tables *)

Lemma dropwhile_clean {A} (p : A -> bool) (l : list A) :
  (forall x, In x l -> p x = false) -> Py.dropwhile p l = l.
Proof.
  destruct l as [|x l]; [reflexivity|]. intros H. cbn.
  now rewrite (H x) by now left.
Qed.

Lemma names_fits (w : nat) (h : text) : names w h -> fits w h.
Proof.
  intros (Hne & Hw & Hs). rewrite forallb_forall in Hs.
  assert (Hc : forall c, In c h -> isspace c = false).
  { intros c Hin. specialize (Hs c Hin). now apply negb_true_iff in Hs. }
  split; [exact Hw|]. split.
  - unfold str_strip, Py.strip_by, Py.rstrip_by.
    rewrite (dropwhile_clean isspace h Hc).
    rewrite dropwhile_clean; [apply rev_involutive|].
    intros c Hin. apply Hc. now apply in_rev.
  - intros Hin. specialize (Hc _ Hin). discriminate.
Qed.

Lemma lines_of_line (l : text) : ~ In newline l -> lines_of l = [l].
Proof.
  unfold lines_of. induction l as [|c l IH]; intros H; [reflexivity|].
  cbn [Py.split]. destruct (N.eqb_spec c newline) as [->|_].
  - exfalso. apply H. now left.
  - rewrite IH; [reflexivity|]. intros Hin. apply H. now right.
Qed.

Lemma lines_of_table (lines : list text) :
  lines <> [] -> Forall (fun l => ~ In newline l) lines ->
  lines_of (table lines) = lines.
Proof.
  intros Hne H. revert Hne.
  induction H as [|l lines Hl Hlines IH]; intros Hne; [now contradiction Hne|].
  destruct lines as [|l' lines].
  - now apply lines_of_line.
  - change (table (l :: l' :: lines)) with (l ++ newline :: table (l' :: lines)).
    rewrite lines_of_app, lines_of_line by exact Hl.
    rewrite IH by discriminate. reflexivity.
Qed.

Lemma fixed_width_one_line (ws : list nat) (vs : list text) :
  Forall2 fits ws vs -> ~ In newline (fixed_width ws vs).
Proof.
  unfold fixed_width. induction 1 as [|w v ws vs (_ & _ & Hv) _ IH];
    [intros []|].
  cbn [combine map concat]. unfold column at 1, pad. cbn [fst snd].
  rewrite !in_app_iff. intros [[Hin|Hin]|Hin]; [now apply Hv| |now apply IH].
  apply repeat_spec in Hin. discriminate.
Qed.

Lemma forall2_length {A B : Type} (P : A -> B -> Prop) (l : list A) (l' : list B) :
  Forall2 P l l' -> length l = length l'.
Proof. induction 1; cbn; congruence. Qed.

Lemma table_line_one_line (ws : list nat) (e : text) (vs : list text) :
  Forall2 fits ws vs -> ending e -> ~ In newline (table_line ws e vs).
Proof.
  intros Hf (_ & _ & He) Hin. unfold table_line in Hin.
  apply in_app_iff in Hin as [Hin|Hin]; [|now apply He].
  now apply (fixed_width_one_line ws vs Hf).
Qed.

Lemma table_of_fixed_width (ws : list nat) (e : text) (hs : list text)
    (rws : list (list text)) :
  hs <> [] -> Forall2 names ws hs -> Forall (Forall2 fits ws) rws ->
  ending e ->
  table_records (table (map (table_line ws e) (hs :: rws)))
  = Some (map (dict_zip hs) rws).
Proof.
  intros Hne Hn Hrws He.
  assert (Hh : Forall2 fits ws hs).
  { eapply Forall2_impl; [|exact Hn]. apply names_fits. }
  assert (Hcells : forall vs, Forall2 fits ws vs ->
             cells (colstart_of (table_line ws e hs)) (table_line ws e vs)
             = Some vs).
  { intros vs Hvs. destruct He as (H1 & H2 & _).
    now apply cells_of_fixed_width. }
  unfold table_records. rewrite lines_of_table.
  - cbn [map].
    assert (H0 : forall (a : text) l, Py.index (a :: l) 0 = Some a)
      by reflexivity.
    rewrite H0, (Hcells hs Hh), slice_tail. cbn [tl].
    apply traverse_map. intros vs Hin. unfold record_of.
    rewrite Forall_forall in Hrws. now rewrite (Hcells vs (Hrws vs Hin)).
  - discriminate.
  - apply Forall_map. constructor; [now apply table_line_one_line|].
    eapply Forall_impl; [|exact Hrws].
    intros vs Hvs. now apply table_line_one_line.
Qed.

(** X14: a line laid out in the columns of its header is cut back into its
    cells, and the header line into the column names. The header gives
    each column a name without whitespace followed by at least one space;
    a line gives each column a cell that leaves at least one space of the
    column free and has no whitespace at either end (it may have spaces
    inside, and may be empty); header and line end alike, in nothing or in
    one more whitespace character such as a carriage return. *)
Theorem line_in_columns_is_cut_into_its_cells (ws : list nat) (e : text)
    (hs vs : list text) :
  hs <> [] -> Forall2 names ws hs -> Forall2 fits ws vs -> ending e ->
  cells (colstart_of (table_line ws e hs)) (table_line ws e hs) = Some hs
  /\ cells (colstart_of (table_line ws e hs)) (table_line ws e vs) = Some vs.
Proof.
  intros Hne Hn Hf (H1 & H2 & _).
  split; apply cells_of_fixed_width; auto.
  eapply Forall2_impl; [|exact Hn]. apply names_fits.
Qed.

Lemma line_in_columns_is_cut_into_its_cells_witness :
  cells (colstart_of (txt "Base.St Power Volt " ++ [carriage_return]))
    (txt "Base.St Power Volt " ++ [carriage_return])
  = Some [txt "Base.St"; txt "Power"; txt "Volt"]
  /\ cells (colstart_of (txt "Base.St Power Volt " ++ [carriage_return]))
       (txt "Normal  120   480  " ++ [carriage_return])
     = Some [txt "Normal"; txt "120"; txt "480"].
Proof.
  apply (line_in_columns_is_cut_into_its_cells [8; 6; 5] [carriage_return]
           [txt "Base.St"; txt "Power"; txt "Volt"]
           [txt "Normal"; txt "120"; txt "480"]).
  - discriminate.
  - repeat constructor; try discriminate; cbn; lia.
  - repeat constructor; cbn; try lia; intuition discriminate.
  - repeat split; cbn; [lia|intuition discriminate].
Defined.

(** X15: a table of such lines, joined by newlines, with a column named
    "Base.St", is parsed into the records of its lines, in order: those
    whose "Base.St" cell is "Absent" dropped, the others coerced. *)
Theorem fixed_width_table_is_read_back (ws : list nat) (e : text)
    (hs : list text) (rws : list (list text)) :
  In (txt "Base.St") hs ->
  Forall2 names ws hs ->
  Forall (Forall2 fits ws) rws ->
  ending e ->
  parsePowerTable (table (map (table_line ws e) (hs :: rws)))
  = Return (map coerce (filter reported (map (dict_zip hs) rws))).
Proof.
  intros Hst Hn Hrws He.
  assert (Hne : hs <> []) by (intros ->; contradiction).
  apply parse_returns; [now apply table_of_fixed_width|].
  apply forallb_forall. intros it Hin. apply in_map_iff in Hin as (vs & <- & Hvs).
  apply has_status_fields. rewrite dict_zip_fields.
  - now apply first_occurrences_in.
  - rewrite Forall_forall in Hrws. specialize (Hrws vs Hvs).
    rewrite <- (forall2_length _ _ _ Hn). now apply forall2_length in Hrws.
Qed.

Lemma fixed_width_table_is_read_back_witness :
  parsePowerTable
    (table [txt "Power Base.St Coulomb " ++ [carriage_return];
            txt "120   Normal  91%     " ++ [carriage_return];
            txt "-     Absent  -       " ++ [carriage_return]])
  = Return [[(txt "Power", Int 120);
             (txt "Base.St", Str (txt "Normal"));
             (txt "Coulomb", Int 91)]].
Proof.
  apply (fixed_width_table_is_read_back [6; 8; 8] [carriage_return]
           [txt "Power"; txt "Base.St"; txt "Coulomb"]
           [[txt "120"; txt "Normal"; txt "91%"];
            [txt "-"; txt "Absent"; txt "-"]]).
  - right. now left.
  - repeat constructor; try discriminate; cbn; lia.
  - repeat constructor; cbn; try lia; intuition discriminate.
  - repeat split; cbn; [lia|intuition discriminate].
Defined.

(** ** The engine and the parser together *)

Lemma get_power_command (network : bool) (w : world) :
  get_power network w
  = (match fst (transport_command (transport_of network) pwr 1 true w) with
     | Return response => parsePowerTable response
     | Raise e => Raise e
     end,
     snd (transport_command (transport_of network) pwr 1 true w)).
Proof.
  unfold get_power, network_command, serial_command, transport_of, pwr.
  destruct network;
    destruct (transport_command _ (txt "pwr") 1 true w) as [[r|e] w'];
    reflexivity.
Qed.

Lemma framed_attempt (t : transport) (command : text)
    (command_bytes payload : bytes) (reply : text) (s : session) :
  ascii_text command = true ->
  encode command = Some command_bytes ->
  decode payload = Some reply ->
  ready t s = true ->
  delivers t (reads s) (framed_response command_bytes payload) ->
  ends_early MARK_END [] (reads s) = false ->
  attempt t command command_bytes true s = Return reply.
Proof.
  intros Hascii Henc Hdec Hready (Hub & Hrec & Hidle) Hearly.
  rewrite attempt_ready by exact Hready.
  destruct (read_loop_found t MARK_END _ (framed_response_marked _ _)
              (reads s) [] 0 Hub Hrec Hidle Hearly) as [n Hn].
  unfold empty_buffer. cbn [mark_end_of]. rewrite Hn. cbn [response].
  destruct (unwrap_framed_response command command_bytes payload
              (encode_ascii_length _ _ Hascii Henc)) as [Hok Hslice].
  cbv zeta in Hok, Hslice. rewrite Hok, Hslice. cbn [negb].
  unfold decode_response. now rewrite Hdec.
Qed.

(** X16: when [get_power] ends, it has returned the records, or raised
    "Error sending command pwr" (the command failed after its one retry),
    or raised "Error parsing power (<response>)" with the response that
    the command returned: no other exception leaves it. It has then taken
    one connection, or three (the command, the probe and the retry); a
    response that does not parse is not asked for again. Nothing is said
    of a call that does not end. *)
Theorem get_power_fails_in_two_ways (network : bool) (w w' : world)
    (r : result (list item)) :
  get_power network w = (r, w') ->
  (forall e, r = Raise e ->
     e = CommandFailed pwr
     \/ exists response,
          fst (transport_command (transport_of network) pwr 1 true w)
          = Return response
          /\ e = TableParseError response)
  /\ (w' = {| device := skipn 1 (device w);
              calls := calls w ++ [logged pwr 1 true] |}
      \/ w' = {| device := skipn 3 (device w);
                 calls := calls w ++ [logged pwr 1 true; logged [] 0 false;
                                      logged pwr 0 true] |}).
Proof.
  rewrite get_power_command.
  set (t := transport_of network).
  assert (He : encode pwr = Some (b_ "pwr")) by reflexivity.
  assert (Hparse : forall response e,
             parsePowerTable response = Raise e ->
             e = TableParseError response).
  { intros response e. unfold parsePowerTable.
    destruct (power_table response); [discriminate|now intros [= <-]]. }
  destruct (attempt t pwr (b_ "pwr") true (served w)) as [r0|e0] eqn:Ha.
  - rewrite (command_returns _ _ _ _ _ _ _ He Ha). cbn [fst snd].
    intros [= <- <-]. split.
    + intros e H. right. exists r0. split; [reflexivity|now apply Hparse].
    + left. apply after_call_world.
  - rewrite (command_retries _ _ _ _ _ _ _ He Ha), probe_world.
    set (w2 := after_call _ (after_call _ w)).
    assert (Hw2 : after_call (logged pwr 0 true) w2
                  = {| device := skipn 3 (device w);
                       calls := calls w ++ [logged pwr 1 true; logged [] 0 false;
                                            logged pwr 0 true] |}).
    { subst w2. rewrite !after_call_world. cbn [device calls].
      rewrite !skipn_skipn, <- !app_assoc. reflexivity. }
    destruct (attempt t pwr (b_ "pwr") true (served w2)) as [r0|e2] eqn:Ha2.
    + rewrite (command_returns _ _ _ _ _ _ _ He Ha2). cbn [fst snd].
      intros [= <- <-]. split.
      * intros e H. right. exists r0. split; [reflexivity|now apply Hparse].
      * right. exact Hw2.
    + rewrite (command_gives_up _ _ _ _ _ _ He Ha2). cbn [fst snd].
      intros [= <- <-]. split.
      * intros e [= <-]. now left.
      * right. exact Hw2.
Qed.

Lemma get_power_fails_in_two_ways_witness :
  get_power false (fresh late_device)
  = (Raise (TableParseError (txt "Power" ++ [newline])),
     {| device := [];
        calls := [logged pwr 1 true; logged [] 0 false; logged pwr 0 true] |})
  /\ (forall e,
        @Raise (list item) (TableParseError (txt "Power" ++ [newline]))
        = Raise e ->
        e = CommandFailed pwr
        \/ exists response,
             fst (serial_command pwr 1 true (fresh late_device))
             = Return response
             /\ e = TableParseError response)
  /\ ({| device := [];
         calls := [logged pwr 1 true; logged [] 0 false; logged pwr 0 true] |}
      = {| device := skipn 1 late_device; calls := [logged pwr 1 true] |}
      \/ {| device := [];
            calls := [logged pwr 1 true; logged [] 0 false;
                      logged pwr 0 true] |}
         = {| device := skipn 3 late_device;
              calls := [logged pwr 1 true; logged [] 0 false;
                        logged pwr 0 true] |}).
Proof.
  split; [reflexivity|].
  apply (get_power_fails_in_two_ways false (fresh late_device)).
  reflexivity.
Defined.

(** X17: the engine and the parser together. When the first connection
    hands over the framed response to "pwr" (at most five idle reads, no
    read finding the end marker early) and its payload decodes to a table
    in fixed-width columns with a "Base.St" column, [get_power] returns the
    coerced records of the rows that are not "Absent", having used that one
    connection. *)
Theorem get_power_returns_the_table
    (network : bool) (s : session) (rest : list session) (log : list call)
    (payload : bytes) (ws : list nat) (e : text) (hs : list text)
    (rws : list (list text)) :
  ready (transport_of network) s = true ->
  delivers (transport_of network) (reads s)
    (framed_response (b_ "pwr") payload) ->
  ends_early MARK_END [] (reads s) = false ->
  decode payload = Some (table (map (table_line ws e) (hs :: rws))) ->
  In (txt "Base.St") hs ->
  Forall2 names ws hs ->
  Forall (Forall2 fits ws) rws ->
  ending e ->
  get_power network {| device := s :: rest; calls := log |}
  = (Return (map coerce (filter reported (map (dict_zip hs) rws))),
     {| device := rest; calls := log ++ [logged pwr 1 true] |}).
Proof.
  intros Hready Hdel Hearly Hdec Hst Hn Hrws He.
  rewrite get_power_command.
  rewrite (command_returns (transport_of network) pwr 1 true
             {| device := s :: rest; calls := log |} (b_ "pwr")
             (table (map (table_line ws e) (hs :: rws))) eq_refl).
  - cbn [fst snd]. f_equal.
    apply parse_returns; [apply table_of_fixed_width; auto|].
    + intros ->. contradiction.
    + apply forallb_forall. intros it Hin.
      apply in_map_iff in Hin as (vs & <- & Hvs).
      apply has_status_fields. rewrite dict_zip_fields.
      * now apply first_occurrences_in.
      * rewrite Forall_forall in Hrws. specialize (Hrws vs Hvs).
        rewrite <- (forall2_length _ _ _ Hn). now apply forall2_length in Hrws.
  - cbn [served connect device fst].
    now apply (framed_attempt _ pwr (b_ "pwr") payload).
Qed.

Lemma get_power_returns_the_table_witness :
  get_power false
    (fresh [talking [Data (b_ "pwr" ++ MARK_BEGIN); Timeout;
                     Data (b_ "Power Base.St Coulomb " ++ [CR; LF]
                           ++ b_ "120   Normal  91%     " ++ [CR; LF]);
                     Data (b_ "-     Absent  -       " ++ [CR] ++ MARK_END)]])
  = (Return [[(txt "Power", Int 120);
              (txt "Base.St", Str (txt "Normal"));
              (txt "Coulomb", Int 91)]],
     {| device := []; calls := [logged pwr 1 true] |}).
Proof.
  apply (get_power_returns_the_table false _ [] []
           (b_ "Power Base.St Coulomb " ++ [CR; LF]
            ++ b_ "120   Normal  91%     " ++ [CR; LF]
            ++ b_ "-     Absent  -       " ++ [CR])
           [6; 8; 8] [carriage_return]
           [txt "Power"; txt "Base.St"; txt "Coulomb"]
           [[txt "120"; txt "Normal"; txt "91%"];
            [txt "-"; txt "Absent"; txt "-"]]).
  - reflexivity.
  - repeat split. cbn. lia.
  - vm_compute. reflexivity.
  - vm_compute. reflexivity.
  - right. now left.
  - repeat constructor; try discriminate; cbn; lia.
  - repeat constructor; cbn; try lia; intuition discriminate.
  - repeat split; cbn; [lia|intuition discriminate].
Defined.
